(** * MantaRay SIMD kernels ([src/SIMD.h]): the scalar path

    A shallow embedding of the four kernels of [class SIMD]
    ([AddToAll], [SubtractFromAll], [SubtractAndAddToAll],
    [ActivateFlattenAndForward]) as they are compiled when neither
    [__AVX512BW__] nor [__AVX2__] is defined (the [#else] branches; the
    vector branches rest on [Backend/Avx512.h] and [Backend/Avx2.h]), and
    the properties of those kernels. The vector branches follow, over a
    model of the backend operations they call, and are compared with the
    scalar branches.

    Conventions of the embedding:
    - a [std::array<T, N>] is a [list Z] of length [N]; the element type [T]
      is one of the signed fixed-width integer types, and a value of that
      type is the integer it denotes, within the range of the type
      (floating-point element types are not covered);
    - [operator[]] of [std::array] is unchecked; an index outside the
      array is undefined behaviour, which the embedding reports as a
      [Fault] naming the array and the index;
    - arithmetic follows the C++ rules for integers: operands narrower than
      [int] are promoted to [int], the operation is carried out in the
      common type, and the result is converted to the type of the object
      it is stored into; overflow wraps around (two's complement);
    - the three array references handed to an update kernel denote
      pairwise distinct objects, as the two accumulators of a position and
      the weights of the network are. *)

From stdpp Require Import base tactics option list numbers.
From Stdlib Require Import ZArith Lia.

Set Default Proof Using "Type".
Local Open Scope Z_scope.

(** ** Fixed-width signed integers *)

(** The signed integer element types ([int8_t] ... [int64_t]). *)
Inductive int_type := I8 | I16 | I32 | I64.

Definition bits (T : int_type) : Z :=
  match T with I8 => 8 | I16 => 16 | I32 => 32 | I64 => 64 end.

(** Integer promotion: a type of lower rank than [int] becomes [int]. *)
Definition promote (T : int_type) : int_type :=
  match T with I8 | I16 => I32 | _ => T end.

(** Usual arithmetic conversions for two signed operand types: both are
    promoted, then the one of greater rank is the type of the operation. *)
Definition common (T U : int_type) : int_type :=
  if bits (promote T) <? bits (promote U) then promote U else promote T.

(** Two's complement reduction of an integer to [w] bits. *)
Definition wrap (w : Z) (x : Z) : Z :=
  (x + 2 ^ (w - 1)) mod 2 ^ w - 2 ^ (w - 1).

(** Conversion of a value to type [T]. *)
Definition convert (T : int_type) (x : Z) : Z := wrap (bits T) x.

Definition in_range (T : int_type) (x : Z) : Prop :=
  - 2 ^ (bits T - 1) <= x < 2 ^ (bits T - 1).

(** [x + y], [x - y] and [x * y] for operands of types [T] and [U]. *)
Definition add (T U : int_type) (x y : Z) : Z := convert (common T U) (x + y).
Definition sub (T U : int_type) (x y : Z) : Z := convert (common T U) (x - y).
Definition mul (T U : int_type) (x y : Z) : Z := convert (common T U) (x * y).

(** [x += y] and [x -= y] on an object [x] of type [T] with [y] of type [U]:
    the new value of [x]. *)
Definition add_assign (T U : int_type) (x y : Z) : Z := convert T (add T U x y).
Definition sub_assign (T U : int_type) (x y : Z) : Z := convert T (sub T U x y).

(** [x = a - s + t] on an object [x] of type [T], all operands of type [T]:
    the subtraction and the addition are both carried out in the promoted
    type, and only the final value is converted back to [T]. *)
Definition sub_add_assign (T : int_type) (a s t : Z) : Z :=
  convert T (add (promote T) T (sub T T a s) t).

(** ** Undefined behaviour as a fault *)

Inductive array_id :=
  InputA | InputB | Delta | Weight | Bias | Output.

Inductive fault := OutOfBounds (a : array_id) (i : nat).

Inductive result (A : Type) : Type :=
  | Ok (x : A)
  | Fault (f : fault).
Arguments Ok {A} x.
Arguments Fault {A} f.

#[global] Instance result_ret : MRet result := fun A x => Ok x.
#[global] Instance result_bind : MBind result := fun A B k m =>
  match m with Ok x => k x | Fault f => Fault f end.

(** [a[i]] as an rvalue. *)
Definition read (a : array_id) (l : list Z) (i : nat) : result Z :=
  match l !! i with
  | Some x => Ok x
  | None => Fault (OutOfBounds a i)
  end.

(** [a[i] = x]. *)
Definition write (a : array_id) (l : list Z) (i : nat) (x : Z) : result (list Z) :=
  if decide (i < length l)%nat then Ok (<[i := x]> l)
  else Fault (OutOfBounds a i).

(** [for (size_t i = start; i < start + n; i++) body], threading the
    state [s] through the iterations. *)
Fixpoint for_range {St : Type} (start n : nat) (body : nat → St → result St)
    (s : St) : result St :=
  match n with
  | O => Ok s
  | S n' => s' ← body start s; for_range (S start) n' body s'
  end.

(** ** The accumulator update kernels *)

(** The objects an update kernel is given: the two accumulators, which it
    mutates, and the delta table, which it only reads. *)
Record Mem := mkMem {
  inputA : list Z;
  inputB : list Z;
  delta : list Z
}.

Definition set_inputA (m : Mem) (l : list Z) : Mem :=
  mkMem l (inputB m) (delta m).
Definition set_inputB (m : Mem) (l : list Z) : Mem :=
  mkMem (inputA m) l (delta m).

Section Kernels.
(** Template parameters: the element type and the accumulator length.
    [DeltaSize] is the length of [delta]. The offsets are [uint32_t]
    values added to a [size_t] index; they are natural numbers here, and
    an in-bounds access cannot wrap around. In a compound assignment the
    right operand is evaluated before the left one. *)
Variable T : int_type.
Variable InputSize : nat.

(** [for (size_t i = 0; i < InputSize; i++) inputA[i] += delta[oA + i];]
    [for (size_t i = 0; i < InputSize; i++) inputB[i] += delta[oB + i];] *)
Definition AddToAll (oA oB : nat) (m : Mem) : result Mem :=
  m ← for_range 0 InputSize (λ i m,
         d ← read Delta (delta m) (oA + i);
         a ← read InputA (inputA m) i;
         l ← write InputA (inputA m) i (add_assign T T a d);
         mret (set_inputA m l)) m;
  for_range 0 InputSize (λ i m,
    d ← read Delta (delta m) (oB + i);
    b ← read InputB (inputB m) i;
    l ← write InputB (inputB m) i (add_assign T T b d);
    mret (set_inputB m l)) m.

(** [for (size_t i = 0; i < InputSize; i++) inputA[i] -= delta[oA + i];]
    [for (size_t i = 0; i < InputSize; i++) inputB[i] -= delta[oB + i];] *)
Definition SubtractFromAll (oA oB : nat) (m : Mem) : result Mem :=
  m ← for_range 0 InputSize (λ i m,
         d ← read Delta (delta m) (oA + i);
         a ← read InputA (inputA m) i;
         l ← write InputA (inputA m) i (sub_assign T T a d);
         mret (set_inputA m l)) m;
  for_range 0 InputSize (λ i m,
    d ← read Delta (delta m) (oB + i);
    b ← read InputB (inputB m) i;
    l ← write InputB (inputB m) i (sub_assign T T b d);
    mret (set_inputB m l)) m.

(** [for (size_t i = 0; i < InputSize; i++) {]
    [  inputA[i] = inputA[i] - delta[oAS + i] + delta[oAA + i];]
    [  inputB[i] = inputB[i] - delta[oBS + i] + delta[oBA + i]; }] *)
Definition SubtractAndAddToAll (oAS oAA oBS oBA : nat) (m : Mem) : result Mem :=
  for_range 0 InputSize (λ i m,
    a ← read InputA (inputA m) i;
    s ← read Delta (delta m) (oAS + i);
    t ← read Delta (delta m) (oAA + i);
    l ← write InputA (inputA m) i (sub_add_assign T a s t);
    let m := set_inputA m l in
    b ← read InputB (inputB m) i;
    s ← read Delta (delta m) (oBS + i);
    t ← read Delta (delta m) (oBA + i);
    l ← write InputB (inputB m) i (sub_add_assign T b s t);
    mret (set_inputB m l)) m.

(** ** The forward pass *)

(** Further template parameters: the output type, the number of output
    neurons and the activation, whose [Activate] maps a [T] to a [T]. *)
Variable OT : int_type.
Variable OutputSize : nat.
Variable Activate : Z → Z.

(** The body of the loop over [j]: the two [sum += ...] statements. *)
Definition forward_step (inputA inputB weight : list Z) (stride j : nat)
    (sum : Z) : result Z :=
  a ← read InputA inputA j;
  w ← read Weight weight (stride + j);
  let sum := add_assign OT (promote T) sum (mul T T (Activate a) w) in
  b ← read InputB inputB j;
  w ← read Weight weight (InputSize + stride + j);
  mret (add_assign OT (promote T) sum (mul T T (Activate b) w)).

(** The body of the loop over [i], on the pair of [stride] and [output]:
    [OT sum = 0; for (...) {...} stride += InputSize * 2;]
    [output[o + i] = sum + bias[o + i];] *)
Definition forward_neuron (inputA inputB weight bias : list Z) (o i : nat)
    (st : nat * list Z) : result (nat * list Z) :=
  let '(stride, output) := st in
  sum ← for_range 0 InputSize (forward_step inputA inputB weight stride) 0;
  let stride := (stride + InputSize * 2)%nat in
  b ← read Bias bias (o + i);
  output ← write Output output (o + i) (convert OT (add OT T sum b));
  mret (stride, output).

(** [size_t stride = 0; for (size_t i = 0; i < OutputSize; i++) {...}];
    the result is the final contents of [output]. *)
Definition ActivateFlattenAndForward (inputA inputB weight bias output : list Z)
    (o : nat) : result (list Z) :=
  st ← for_range 0 OutputSize (forward_neuron inputA inputB weight bias o)
         (0%nat, output);
  mret (st.2).

End Kernels.

(** ** Vocabulary of the properties *)

(** [l] has the length its [std::array] type declares. *)
Definition sized (n : nat) (l : list Z) : Prop := length l = n.

(** [l] holds values of type [T]. *)
Definition typed (T : int_type) (l : list Z) : Prop := Forall (in_range T) l.

(** The [n]-element slice of [l] that starts at offset [o]. *)
Definition slice (l : list Z) (o n : nat) : list Z := take n (drop o l).

(** The slice of [n] elements at offset [o] lies within [l]. *)
Definition in_bounds (l : list Z) (o n : nat) : Prop := (o + n ≤ length l)%nat.

(** [f 0 + f 1 + ... + f (n - 1)] over the integers. *)
Fixpoint big_sum (n : nat) (f : nat → Z) : Z :=
  match n with
  | O => 0
  | S n' => big_sum n' f + f n'
  end.

(** The dot product of the activated concatenation of [inputA] and
    [inputB] with weight block [i]: the weights of [inputA] start at
    [i * 2 * InputSize], those of [inputB] follow [InputSize] later. Each
    product is one of two [T] operands. *)
Definition weighted_sum (T : int_type) (InputSize : nat) (Activate : Z → Z)
    (inputA inputB weight : list Z) (i : nat) : Z :=
  big_sum InputSize (λ j,
    mul T T (Activate (inputA !!! j)) (weight !!! (i * 2 * InputSize + j)%nat) +
    mul T T (Activate (inputB !!! j))
      (weight !!! (i * 2 * InputSize + InputSize + j)%nat)).

(** An array after [k] iterations of a loop that replaces, for
    [j = 0, 1, ...], the element [a] at index [o + j] by [g j a]. *)
Definition updated (g : nat → Z → Z) (o k : nat) (l : list Z) : list Z :=
  imap (λ j a, if decide (o ≤ j < o + k)%nat then g (j - o)%nat a else a) l.

(** Functional models of the kernels: the accumulator [l] with the slice
    of [D] at offset [o] added to it, subtracted from it, and with the
    slice at [oS] subtracted and the slice at [oA] added. *)
Definition add_slice (T : int_type) (D : list Z) (o : nat) (l : list Z) : list Z :=
  imap (λ j a, add_assign T T a (D !!! (o + j)%nat)) l.
Definition sub_slice (T : int_type) (D : list Z) (o : nat) (l : list Z) : list Z :=
  imap (λ j a, sub_assign T T a (D !!! (o + j)%nat)) l.
Definition sub_add_slice (T : int_type) (D : list Z) (oS oA : nat) (l : list Z)
    : list Z :=
  imap (λ j a, sub_add_assign T a (D !!! (oS + j)%nat) (D !!! (oA + j)%nat)) l.

(** The value of output neuron [i]: the weighted sum plus [bias[o + i]],
    as a value of type [OT]. *)
Definition neuron_value (T : int_type) (InputSize : nat) (OT : int_type)
    (Activate : Z → Z) (inputA inputB weight bias : list Z) (o i : nat) : Z :=
  convert OT (weighted_sum T InputSize Activate inputA inputB weight i
              + bias !!! (o + i)%nat).

(** Functional model of the forward pass: [output] after the values of
    neurons [0 .. k - 1] are stored from offset [o] on. *)
Definition forward_output (T : int_type) (InputSize : nat) (OT : int_type)
    (Activate : Z → Z) (inputA inputB weight bias : list Z) (o k : nat)
    (output : list Z) : list Z :=
  updated (λ i _, neuron_value T InputSize OT Activate inputA inputB weight bias o i)
    o k output.

(** The value of output neuron [i] over the integers, without any
    reduction to a fixed width. *)
Definition exact_neuron_value (InputSize : nat) (Activate : Z → Z)
    (inputA inputB weight bias : list Z) (o i : nat) : Z :=
  big_sum InputSize (λ j,
    Activate (inputA !!! j) * weight !!! (i * 2 * InputSize + j)%nat +
    Activate (inputB !!! j) * weight !!! (i * 2 * InputSize + InputSize + j)%nat)
  + bias !!! (o + i)%nat.

(** Two runs both complete, and leave the same [inputA] (the same [inputB]). *)
Definition same_inputA (r1 r2 : result Mem) : Prop :=
  ∃ m1 m2, r1 = Ok m1 ∧ r2 = Ok m2 ∧ inputA m1 = inputA m2.
Definition same_inputB (r1 r2 : result Mem) : Prop :=
  ∃ m1 m2, r1 = Ok m1 ∧ r2 = Ok m2 ∧ inputB m1 = inputB m2.

(** ** The vector branches of the update kernels *)

(** Modelled from the spec: the backend headers [Backend/Avx512.h] and
    [Backend/Avx2.h] are not among the sources. A register is the list of
    its lanes. [From] loads the chunk of [w] elements of a container that
    starts at an offset, [Store] writes a chunk back at an offset, and
    [Add] and [Subtract] work lane by lane in the wrap-around arithmetic
    of [T]. A chunk that does not lie within the container is an access
    outside the array. The backend asks for offsets that are multiples of
    the chunk length; the properties below carry that as a premise. *)
Definition vec_From (w : nat) (a : array_id) (l : list Z) (o : nat)
    : result (list Z) :=
  if decide (o + w ≤ length l)%nat then Ok (slice l o w)
  else Fault (OutOfBounds a (o `max` length l)).
Definition vec_Store (a : array_id) (c l : list Z) (o : nat) : result (list Z) :=
  if decide (o + length c ≤ length l)%nat
  then Ok (take o l ++ c ++ drop (o + length c) l)
  else Fault (OutOfBounds a (o `max` length l)).
Definition vec_Add (T : int_type) (x y : list Z) : list Z :=
  zip_with (λ a b, convert T (a + b)) x y.
Definition vec_Subtract (T : int_type) (x y : list Z) : list Z :=
  zip_with (λ a b, convert T (a - b)) x y.

(** [for (size_t i = start; i < n; i += step) body]. The loop is unrolled
    at most [fuel] times; with a positive [step], [n - start] times are
    enough for the condition to end it. *)
Fixpoint for_step_from {St : Type} (fuel start step n : nat)
    (body : nat → St → result St) (s : St) : result St :=
  match fuel with
  | O => Ok s
  | S fuel' =>
      if decide (start < n)%nat
      then s' ← body start s; for_step_from fuel' (start + step) step n body s'
      else Ok s
  end.

(** [for (size_t i = 0; i < n; i += step) body]. *)
Definition for_step {St : Type} (step n : nat) (body : nat → St → result St)
    (s : St) : result St :=
  for_step_from n 0 step n body s.

Section VectorKernels.
(** The element type, the accumulator length, the step of the loops
    (the literal [32] in the [__AVX512BW__] branches and [16] in the
    [__AVX2__] branches, which are otherwise the same) and the number [w]
    of lanes of a register of the backend. *)
Variable T : int_type.
Variable InputSize : nat.
Variable step : nat.
Variable w : nat.

(** [for (size_t i = 0; i < InputSize; i += step) {]
    [  zmm0 = From(inputA, i); zmm1 = From(delta, oA + i);]
    [  zmm0 = Add(zmm0, zmm1); Store(zmm0, inputA, i); }]
    and the same loop on [inputB] with [oB]. *)
Definition AddToAll_vector (oA oB : nat) (m : Mem) : result Mem :=
  m ← for_step step InputSize (λ i m,
         zmm0 ← vec_From w InputA (inputA m) i;
         zmm1 ← vec_From w Delta (delta m) (oA + i);
         let zmm0 := vec_Add T zmm0 zmm1 in
         l ← vec_Store InputA zmm0 (inputA m) i;
         mret (set_inputA m l)) m;
  for_step step InputSize (λ i m,
    zmm0 ← vec_From w InputB (inputB m) i;
    zmm1 ← vec_From w Delta (delta m) (oB + i);
    let zmm0 := vec_Add T zmm0 zmm1 in
    l ← vec_Store InputB zmm0 (inputB m) i;
    mret (set_inputB m l)) m.

(** The same two loops with [Subtract] for [Add]. *)
Definition SubtractFromAll_vector (oA oB : nat) (m : Mem) : result Mem :=
  m ← for_step step InputSize (λ i m,
         zmm0 ← vec_From w InputA (inputA m) i;
         zmm1 ← vec_From w Delta (delta m) (oA + i);
         let zmm0 := vec_Subtract T zmm0 zmm1 in
         l ← vec_Store InputA zmm0 (inputA m) i;
         mret (set_inputA m l)) m;
  for_step step InputSize (λ i m,
    zmm0 ← vec_From w InputB (inputB m) i;
    zmm1 ← vec_From w Delta (delta m) (oB + i);
    let zmm0 := vec_Subtract T zmm0 zmm1 in
    l ← vec_Store InputB zmm0 (inputB m) i;
    mret (set_inputB m l)) m.

(** [for (size_t i = 0; i < InputSize; i += step) {]
    [  zmm0 = From(inputA, i);]
    [  zmm1 = From(delta, oAS + i); zmm2 = From(delta, oAA + i);]
    [  zmm0 = Subtract(zmm0, zmm1); zmm0 = Add(zmm0, zmm2);]
    [  Store(zmm0, inputA, i); }]
    and the same loop on [inputB] with [oBS] and [oBA]. *)
Definition SubtractAndAddToAll_vector (oAS oAA oBS oBA : nat) (m : Mem)
    : result Mem :=
  m ← for_step step InputSize (λ i m,
         zmm0 ← vec_From w InputA (inputA m) i;
         zmm1 ← vec_From w Delta (delta m) (oAS + i);
         zmm2 ← vec_From w Delta (delta m) (oAA + i);
         let zmm0 := vec_Subtract T zmm0 zmm1 in
         let zmm0 := vec_Add T zmm0 zmm2 in
         l ← vec_Store InputA zmm0 (inputA m) i;
         mret (set_inputA m l)) m;
  for_step step InputSize (λ i m,
    zmm0 ← vec_From w InputB (inputB m) i;
    zmm1 ← vec_From w Delta (delta m) (oBS + i);
    zmm2 ← vec_From w Delta (delta m) (oBA + i);
    let zmm0 := vec_Subtract T zmm0 zmm1 in
    let zmm0 := vec_Add T zmm0 zmm2 in
    l ← vec_Store InputB zmm0 (inputB m) i;
    mret (set_inputB m l)) m.

End VectorKernels.

(** ** The vector branch of the forward pass *)

(** Modelled from the spec: further operations of the absent backend
    headers. [Zero] is a register of zeros; [MultiplyAndAddAdjacent]
    multiplies two registers lane by lane and adds the products of
    adjacent lanes in pairs, which gives half as many lanes of the
    accumulation type [OT]; [Sum] adds up the lanes of a register of [OT]. *)
Definition vec_Zero (lanes : nat) : list Z := replicate lanes 0.

Fixpoint add_adjacent (OT : int_type) (l : list Z) : list Z :=
  match l with
  | a :: b :: l' => convert OT (a + b) :: add_adjacent OT l'
  | _ => []
  end.

Definition vec_MultiplyAndAddAdjacent (OT : int_type) (x y : list Z) : list Z :=
  add_adjacent OT (zip_with Z.mul x y).

Definition vec_Sum (OT : int_type) (x : list Z) : Z :=
  convert OT (foldr Z.add 0 x).

Section VectorForward.
(** The parameters of the scalar branch, the step of the loop over [j], the
    numbers of lanes [w] of a register of [T] and [wO] of a register of
    [OT], and the overload of [Activate] on registers. *)
Variable T : int_type.
Variable InputSize : nat.
Variable step : nat.
Variable w : nat.
Variable OT : int_type.
Variable wO : nat.
Variable OutputSize : nat.
Variable Activate_vector : list Z → list Z.

(** The body of the loop over [j]: the blocks [START INPUT A] to
    [END INPUT A] and [START INPUT B] to [END INPUT B]. *)
Definition forward_step_vector (inputA inputB weight : list Z) (stride j : nat)
    (zmm0 : list Z) : result (list Z) :=
  zmm1 ← vec_From w InputA inputA j;
  zmm2 ← vec_From w Weight weight (stride + j);
  let zmm1 := Activate_vector zmm1 in
  let zmm1 := vec_MultiplyAndAddAdjacent OT zmm1 zmm2 in
  let zmm0 := vec_Add OT zmm0 zmm1 in
  zmm1 ← vec_From w InputB inputB j;
  zmm2 ← vec_From w Weight weight (InputSize + stride + j);
  let zmm1 := Activate_vector zmm1 in
  let zmm1 := vec_MultiplyAndAddAdjacent OT zmm1 zmm2 in
  mret (vec_Add OT zmm0 zmm1).

(** The body of the loop over [i]:
    [zmm0 = Zero(); for (...) {...} stride += InputSize * 2;]
    [output[o + i] = Sum(zmm0) + bias[o + i];] *)
Definition forward_neuron_vector (inputA inputB weight bias : list Z) (o i : nat)
    (st : nat * list Z) : result (nat * list Z) :=
  let '(stride, output) := st in
  zmm0 ← for_step step InputSize
            (forward_step_vector inputA inputB weight stride) (vec_Zero wO);
  let stride := (stride + InputSize * 2)%nat in
  b ← read Bias bias (o + i);
  output ← write Output output (o + i)
             (convert OT (add OT T (vec_Sum OT zmm0) b));
  mret (stride, output).

Definition ActivateFlattenAndForward_vector
    (inputA inputB weight bias output : list Z) (o : nat) : result (list Z) :=
  st ← for_range 0 OutputSize
         (forward_neuron_vector inputA inputB weight bias o) (0%nat, output);
  mret (st.2).

End VectorForward.

(** ** Runs on concrete arrays *)

Example AddToAll_run :
  AddToAll I16 2 1 0 (mkMem [1; 2] [3; 4] [10; 20; 30]) =
  Ok (mkMem [21; 32] [13; 24] [10; 20; 30]).
Proof. reflexivity. Qed.

Example SubtractFromAll_run :
  SubtractFromAll I16 2 1 0 (mkMem [21; 32] [13; 24] [10; 20; 30]) =
  Ok (mkMem [1; 2] [3; 4] [10; 20; 30]).
Proof. reflexivity. Qed.

Example SubtractAndAddToAll_run :
  SubtractAndAddToAll I16 2 0 1 1 0 (mkMem [1; 2] [3; 4] [10; 20; 30]) =
  Ok (mkMem [11; 12] [-7; -6] [10; 20; 30]).
Proof. reflexivity. Qed.

Example AddToAll_wraps :
  AddToAll I16 1 0 0 (mkMem [32767] [-32768] [1]) =
  Ok (mkMem [-32768] [-32767] [1]).
Proof. reflexivity. Qed.

Example AddToAll_out_of_bounds :
  AddToAll I16 2 2 0 (mkMem [1; 2] [3; 4] [10; 20; 30]) =
  Fault (OutOfBounds Delta 3).
Proof. reflexivity. Qed.

Example ActivateFlattenAndForward_run :
  ActivateFlattenAndForward I16 2 I32 1 id [1; 2] [3; 4] [1; 1; 1; 1] [5] [0] 0 =
  Ok [15].
Proof. reflexivity. Qed.

Example ActivateFlattenAndForward_two_neurons :
  ActivateFlattenAndForward I16 2 I32 2 (Z.max 0)
    [1; -2] [3; 4] [1; 2; 3; 4; -1; 0; 0; 2] [5; 7] [0; 0] 0 =
  Ok [1 + 9 + 16 + 5; -1 + 8 + 7].
Proof. reflexivity. Qed.

(** ** Two's complement arithmetic *)

Lemma bits_pos T : 0 < bits T.
Proof. destruct T; reflexivity. Qed.

Lemma bits_promote T : bits T <= bits (promote T).
Proof. destruct T; simpl; lia. Qed.

Lemma bits_common_l T U : bits T <= bits (common T U).
Proof. destruct T, U; vm_compute; discriminate. Qed.

Lemma promote_common T U : promote (common T U) = common T U.
Proof. destruct T, U; reflexivity. Qed.

Lemma common_promote_l T : common (promote T) T = promote T.
Proof. destruct T; reflexivity. Qed.

Lemma common_diag T : common T T = promote T.
Proof. destruct T; reflexivity. Qed.

(** Reduction changes a value by a multiple of [2 ^ w]. *)
Lemma wrap_multiple w x : 0 < w → ∃ k, wrap w x = x + k * 2 ^ w.
Proof.
  intros Hw. unfold wrap.
  assert (0 < 2 ^ w) by (apply Z.pow_pos_nonneg; lia).
  exists (- ((x + 2 ^ (w - 1)) / 2 ^ w)).
  pose proof (Z.div_mod (x + 2 ^ (w - 1)) (2 ^ w)). lia.
Qed.

(** Values that differ by a multiple of [2 ^ w] reduce to the same value. *)
Lemma wrap_shift w x k : wrap w (x + k * 2 ^ w) = wrap w x.
Proof.
  unfold wrap. f_equal.
  replace (x + k * 2 ^ w + 2 ^ (w - 1)) with (x + 2 ^ (w - 1) + k * 2 ^ w) by lia.
  apply Z_mod_plus_full.
Qed.

Lemma wrap_in_range w x :
  0 < w → - 2 ^ (w - 1) <= wrap w x < 2 ^ (w - 1).
Proof.
  intros Hw. unfold wrap.
  assert (2 ^ w = 2 * 2 ^ (w - 1)) as Hpow.
  { rewrite <- Z.pow_succ_r by lia. f_equal. lia. }
  assert (0 < 2 ^ (w - 1)) by (apply Z.pow_pos_nonneg; lia).
  pose proof (Z.mod_pos_bound (x + 2 ^ (w - 1)) (2 ^ w)). lia.
Qed.

Lemma wrap_small w x :
  0 < w → - 2 ^ (w - 1) <= x < 2 ^ (w - 1) → wrap w x = x.
Proof.
  intros Hw Hx. unfold wrap.
  assert (2 ^ w = 2 * 2 ^ (w - 1)) as Hpow.
  { rewrite <- Z.pow_succ_r by lia. f_equal. lia. }
  rewrite Z.mod_small by lia. lia.
Qed.

(** A reduction to more bits is absorbed by a later reduction to fewer. *)
Lemma wrap_absorb w w' x y :
  0 < w <= w' → wrap w (wrap w' x + y) = wrap w (x + y).
Proof.
  intros Hw. destruct (wrap_multiple w' x) as [k ->]; [lia|].
  replace (2 ^ w') with (2 ^ (w' - w) * 2 ^ w).
  - replace (x + k * (2 ^ (w' - w) * 2 ^ w) + y)
      with (x + y + (k * 2 ^ (w' - w)) * 2 ^ w) by lia.
    apply wrap_shift.
  - rewrite <- Z.pow_add_r by lia. f_equal. lia.
Qed.

Lemma convert_in_range T x : in_range T (convert T x).
Proof. apply wrap_in_range, bits_pos. Qed.

Lemma convert_small T x : in_range T x → convert T x = x.
Proof. apply wrap_small, bits_pos. Qed.

(** Inside a conversion to [T], a conversion of an operand to a type at
    least as wide as [T] can be dropped. *)
Lemma convert_absorb T U x y :
  bits T <= bits U → convert T (convert U x + y) = convert T (x + y).
Proof. intros. apply wrap_absorb. pose proof (bits_pos T). lia. Qed.

Lemma convert_convert T U x :
  bits T <= bits U → convert T (convert U x) = convert T x.
Proof.
  intros. rewrite <- (Z.add_0_r (convert U x)), convert_absorb by done.
  by rewrite Z.add_0_r.
Qed.

Lemma convert_absorb_r T U x y :
  bits T <= bits U → convert T (x + convert U y) = convert T (x + y).
Proof.
  intros. rewrite (Z.add_comm x), convert_absorb by done. by rewrite Z.add_comm.
Qed.

Lemma convert_absorb_sub T U x y :
  bits T <= bits U → convert T (convert U x - y) = convert T (x - y).
Proof. intros. unfold Z.sub. by apply convert_absorb. Qed.

(** The product of two operands of a type narrower than [int] is exact. *)
Lemma mul_exact T x y :
  bits T <= 16 → in_range T x → in_range T y → mul T T x y = x * y.
Proof.
  intros HT Hx Hy. unfold mul. rewrite common_diag.
  apply convert_small. unfold in_range in *.
  destruct T; simpl in *; try lia; nia.
Qed.

(** What the three assignments store, as one reduction of the exact value. *)
Lemma add_assign_exact T U x y : add_assign T U x y = convert T (x + y).
Proof. apply convert_convert, bits_common_l. Qed.

Lemma sub_assign_exact T U x y : sub_assign T U x y = convert T (x - y).
Proof. apply convert_convert, bits_common_l. Qed.

Lemma sub_add_assign_exact T a s t :
  sub_add_assign T a s t = convert T (a - s + t).
Proof.
  unfold sub_add_assign, add, sub.
  rewrite common_promote_l, common_diag.
  rewrite convert_convert by apply bits_promote.
  apply convert_absorb, bits_promote.
Qed.

(** ** Loops and array accesses *)

Lemma bind_Ok {A B} (k : A → result B) (x : A) : (Ok x ≫= k) = k x.
Proof. reflexivity. Qed.

(** A loop whose every iteration completes and re-establishes the
    invariant [P] completes, with [P] at the final index. *)
Lemma for_range_invariant {St} (P : nat → St → Prop) body (start n : nat) (s : St) :
  P start s →
  (∀ i s, (start ≤ i < start + n)%nat → P i s →
     ∃ s', body i s = Ok s' ∧ P (S i) s') →
  ∃ s', for_range start n body s = Ok s' ∧ P (start + n)%nat s'.
Proof.
  revert start s. induction n as [|n IH]; intros start s HP Hstep.
  - exists s. by rewrite Nat.add_0_r.
  - destruct (Hstep start s) as (s1 & Hbody & HP1); [lia|done|].
    destruct (IH (S start) s1) as (s2 & Hrun & HP2); [done| |].
    + intros i s' Hi. apply Hstep. lia.
    + exists s2. simpl. rewrite Hbody, bind_Ok.
      by replace (start + S n)%nat with (S start + n)%nat by lia.
Qed.

(** A loop whose iterations complete up to index [k], where the body
    faults, faults in the same way. *)
Lemma for_range_fault {St} (P : nat → St → Prop) body (start n k : nat) f (s : St) :
  (start ≤ k < start + n)%nat →
  P start s →
  (∀ i s, (start ≤ i < k)%nat → P i s → ∃ s', body i s = Ok s' ∧ P (S i) s') →
  (∀ s, P k s → body k s = Fault f) →
  for_range start n body s = Fault f.
Proof.
  revert start s. induction n as [|n IH]; intros start s Hk HP Hstep Hfault; [lia|].
  simpl. destruct (decide (start = k)) as [->|Hne].
  - by rewrite Hfault.
  - destruct (Hstep start s) as (s1 & -> & HP1); [lia|done|].
    rewrite bind_Ok. apply IH; [lia|done| |done].
    intros i s' Hi. apply Hstep. lia.
Qed.

Lemma read_in_bounds a (l : list Z) i :
  (i < length l)%nat → read a l i = Ok (l !!! i).
Proof.
  intros Hi. unfold read.
  by rewrite (list_lookup_lookup_total_lt l i Hi).
Qed.

Lemma read_out_of_bounds a (l : list Z) i :
  (length l ≤ i)%nat → read a l i = Fault (OutOfBounds a i).
Proof. intros Hi. unfold read. by rewrite lookup_ge_None_2. Qed.

Lemma write_in_bounds a (l : list Z) i x :
  (i < length l)%nat → write a l i x = Ok (<[i := x]> l).
Proof. intros Hi. unfold write. by rewrite decide_True. Qed.

Lemma lookup_updated g o k (l : list Z) j :
  updated g o k l !! j =
  (λ a, if decide (o ≤ j < o + k)%nat then g (j - o)%nat a else a) <$> l !! j.
Proof. unfold updated. by rewrite list_lookup_imap. Qed.

Lemma length_updated g o k (l : list Z) : length (updated g o k l) = length l.
Proof. unfold updated. by rewrite length_imap. Qed.

Lemma updated_0 g o (l : list Z) : updated g o 0 l = l.
Proof.
  apply list_eq. intros j. rewrite lookup_updated.
  destruct (l !! j); simpl; [|done]. by rewrite decide_False by lia.
Qed.

(** The next element to be replaced still has its initial value. *)
Lemma read_updated a g o k (l : list Z) :
  (o + k < length l)%nat → read a (updated g o k l) (o + k) = Ok (l !!! (o + k)%nat).
Proof.
  intros Hk. unfold read. rewrite lookup_updated.
  rewrite (list_lookup_lookup_total_lt l _ Hk). simpl.
  by rewrite decide_False by lia.
Qed.

Lemma write_updated a g o k (l : list Z) x :
  (o + k < length l)%nat → x = g k (l !!! (o + k)%nat) →
  write a (updated g o k l) (o + k) x = Ok (updated g o (S k) l).
Proof.
  intros Hk ->. rewrite write_in_bounds by by rewrite length_updated.
  f_equal. apply list_eq. intros j.
  destruct (decide (j = o + k)%nat) as [->|Hne].
  - rewrite list_lookup_insert_eq by by rewrite length_updated.
    rewrite lookup_updated, (list_lookup_lookup_total_lt l _ Hk). simpl.
    rewrite decide_True by lia. do 2 f_equal. lia.
  - rewrite list_lookup_insert_ne by done. rewrite !lookup_updated.
    destruct (l !! j); simpl; [|done].
    destruct (decide (o ≤ j < o + k)%nat), (decide (o ≤ j < o + S k)%nat);
      done || lia.
Qed.

(** Once the loop has run over the whole array, every element is replaced. *)
Lemma updated_all g (l : list Z) : updated g 0 (length l) l = imap g l.
Proof.
  apply list_eq. intros j. rewrite lookup_updated, list_lookup_imap.
  destruct (l !! j) eqn:Hj; simpl; [|done].
  apply lookup_lt_Some in Hj. rewrite decide_True by lia.
  by rewrite Nat.sub_0_r.
Qed.

(** ** The update kernels against their functional models *)

Section UpdateKernels.
Variable T : int_type.
Variable n : nat.

(** One iteration of an elementwise loop over an in-bounds slice. *)
Local Ltac iterate :=
  unfold sized, in_bounds in *; simpl;
  repeat first
    [ rewrite bind_Ok
    | rewrite (read_updated _ _ 0) by (simpl; lia)
    | rewrite read_in_bounds by (simpl; lia)
    | erewrite (write_updated _ _ 0) by (simpl; lia || reflexivity) ];
  simpl.

Lemma AddToAll_spec oA oB A B D :
  sized n A → sized n B → in_bounds D oA n → in_bounds D oB n →
  AddToAll T n oA oB (mkMem A B D) =
  Ok (mkMem (add_slice T D oA A) (add_slice T D oB B) D).
Proof.
  intros HA HB HoA HoB. unfold AddToAll.
  set (gA := λ (j : nat) a, add_assign T T a (D !!! (oA + j)%nat)).
  set (gB := λ (j : nat) a, add_assign T T a (D !!! (oB + j)%nat)).
  edestruct (for_range_invariant
    (λ k m, m = mkMem (updated gA 0 k A) B D)) as (m1 & -> & ->).
  { by rewrite updated_0. }
  { intros i m Hi ->. eexists. split; [|reflexivity]. by iterate. }
  rewrite bind_Ok.
  edestruct (for_range_invariant
    (λ k m, m = mkMem (updated gA 0 n A) (updated gB 0 k B) D)) as (m2 & -> & ->).
  { by rewrite updated_0. }
  { intros i m Hi ->. eexists. split; [|reflexivity]. by iterate. }
  simpl. rewrite <- HA at 1. rewrite <- HB at 1. by rewrite !updated_all.
Qed.

Lemma SubtractFromAll_spec oA oB A B D :
  sized n A → sized n B → in_bounds D oA n → in_bounds D oB n →
  SubtractFromAll T n oA oB (mkMem A B D) =
  Ok (mkMem (sub_slice T D oA A) (sub_slice T D oB B) D).
Proof.
  intros HA HB HoA HoB. unfold SubtractFromAll.
  set (gA := λ (j : nat) a, sub_assign T T a (D !!! (oA + j)%nat)).
  set (gB := λ (j : nat) a, sub_assign T T a (D !!! (oB + j)%nat)).
  edestruct (for_range_invariant
    (λ k m, m = mkMem (updated gA 0 k A) B D)) as (m1 & -> & ->).
  { by rewrite updated_0. }
  { intros i m Hi ->. eexists. split; [|reflexivity]. by iterate. }
  rewrite bind_Ok.
  edestruct (for_range_invariant
    (λ k m, m = mkMem (updated gA 0 n A) (updated gB 0 k B) D)) as (m2 & -> & ->).
  { by rewrite updated_0. }
  { intros i m Hi ->. eexists. split; [|reflexivity]. by iterate. }
  simpl. rewrite <- HA at 1. rewrite <- HB at 1. by rewrite !updated_all.
Qed.

Lemma SubtractAndAddToAll_spec oAS oAA oBS oBA A B D :
  sized n A → sized n B →
  in_bounds D oAS n → in_bounds D oAA n →
  in_bounds D oBS n → in_bounds D oBA n →
  SubtractAndAddToAll T n oAS oAA oBS oBA (mkMem A B D) =
  Ok (mkMem (sub_add_slice T D oAS oAA A) (sub_add_slice T D oBS oBA B) D).
Proof.
  intros HA HB HoAS HoAA HoBS HoBA. unfold SubtractAndAddToAll.
  set (gA := λ (j : nat) a,
         sub_add_assign T a (D !!! (oAS + j)%nat) (D !!! (oAA + j)%nat)).
  set (gB := λ (j : nat) a,
         sub_add_assign T a (D !!! (oBS + j)%nat) (D !!! (oBA + j)%nat)).
  edestruct (for_range_invariant
    (λ k m, m = mkMem (updated gA 0 k A) (updated gB 0 k B) D)) as (m1 & -> & ->).
  { by rewrite !updated_0. }
  { intros i m Hi ->. eexists. split; [|reflexivity]. by iterate. }
  simpl. rewrite <- HA at 1. rewrite <- HB at 1. by rewrite !updated_all.
Qed.

End UpdateKernels.

(** ** Elements of the functional models *)

Lemma lookup_add_slice T D o (l : list Z) i :
  add_slice T D o l !! i = (λ a, convert T (a + D !!! (o + i)%nat)) <$> l !! i.
Proof.
  unfold add_slice. rewrite list_lookup_imap.
  destruct (l !! i); simpl; [|done]. by rewrite add_assign_exact.
Qed.

Lemma lookup_sub_slice T D o (l : list Z) i :
  sub_slice T D o l !! i = (λ a, convert T (a - D !!! (o + i)%nat)) <$> l !! i.
Proof.
  unfold sub_slice. rewrite list_lookup_imap.
  destruct (l !! i); simpl; [|done]. by rewrite sub_assign_exact.
Qed.

Lemma lookup_sub_add_slice T D oS oA (l : list Z) i :
  sub_add_slice T D oS oA l !! i =
  (λ a, convert T (a - D !!! (oS + i)%nat + D !!! (oA + i)%nat)) <$> l !! i.
Proof.
  unfold sub_add_slice. rewrite list_lookup_imap.
  destruct (l !! i); simpl; [|done]. by rewrite sub_add_assign_exact.
Qed.

Lemma length_add_slice T D o (l : list Z) : length (add_slice T D o l) = length l.
Proof. apply length_imap. Qed.

Lemma length_sub_slice T D o (l : list Z) : length (sub_slice T D o l) = length l.
Proof. apply length_imap. Qed.

Lemma length_sub_add_slice T D oS oA (l : list Z) :
  length (sub_add_slice T D oS oA l) = length l.
Proof. apply length_imap. Qed.

Lemma lookup_slice (l : list Z) o n i :
  in_bounds l o n → (i < n)%nat → slice l o n !! i = Some (l !!! (o + i)%nat).
Proof.
  unfold in_bounds, slice. intros Hb Hi.
  rewrite lookup_take_lt, lookup_drop by done.
  apply list_lookup_lookup_total_lt. lia.
Qed.

Lemma typed_lookup T (l : list Z) i a : typed T l → l !! i = Some a → in_range T a.
Proof. intros Hl Hi. by eapply Forall_lookup_1. Qed.

(** Subtracting a slice and then adding another is the fused update. *)
Lemma add_slice_sub_slice T D oS oA (l : list Z) :
  add_slice T D oA (sub_slice T D oS l) = sub_add_slice T D oS oA l.
Proof.
  apply list_eq. intros i.
  rewrite lookup_add_slice, lookup_sub_slice, lookup_sub_add_slice.
  destruct (l !! i); simpl; [|done].
  by rewrite convert_absorb by lia.
Qed.

(** Adding a slice and subtracting it again restores an array of [T]. *)
Lemma sub_slice_add_slice T D o (l : list Z) :
  typed T l → sub_slice T D o (add_slice T D o l) = l.
Proof.
  intros Hl. apply list_eq. intros i.
  rewrite lookup_sub_slice, lookup_add_slice.
  destruct (l !! i) as [a|] eqn:Hi; simpl; [|done].
  rewrite convert_absorb_sub by lia. f_equal.
  replace (a + D !!! (o + i)%nat - D !!! (o + i)%nat) with a by lia.
  eapply convert_small, typed_lookup; done.
Qed.

(** Subtracting and adding the same slice restores an array of [T]. *)
Lemma sub_add_slice_same T D o (l : list Z) :
  typed T l → sub_add_slice T D o o l = l.
Proof.
  intros Hl. apply list_eq. intros i. rewrite lookup_sub_add_slice.
  destruct (l !! i) as [a|] eqn:Hi; simpl; [|done]. f_equal.
  replace (a - D !!! (o + i)%nat + D !!! (o + i)%nat) with a by lia.
  eapply convert_small, typed_lookup; done.
Qed.

(** ** Properties of the update kernels *)

(** C2. With all four slices in bounds, [SubtractAndAddToAll] completes,
    leaves [delta] as it was, and leaves in every [inputA[i]] the old
    [inputA[i] - delta[oAS + i] + delta[oAA + i]], and in every [inputB[i]]
    the old [inputB[i] - delta[oBS + i] + delta[oBA + i]], in the
    arithmetic of [T]. *)
Theorem SubtractAndAddToAll_elementwise T n oAS oAA oBS oBA m :
  sized n (inputA m) → sized n (inputB m) →
  in_bounds (delta m) oAS n → in_bounds (delta m) oAA n →
  in_bounds (delta m) oBS n → in_bounds (delta m) oBA n →
  ∃ m', SubtractAndAddToAll T n oAS oAA oBS oBA m = Ok m' ∧
    delta m' = delta m ∧ sized n (inputA m') ∧ sized n (inputB m') ∧
    ∀ i, (i < n)%nat →
      inputA m' !! i =
        Some (convert T (inputA m !!! i - delta m !!! (oAS + i)%nat
                         + delta m !!! (oAA + i)%nat)) ∧
      inputB m' !! i =
        Some (convert T (inputB m !!! i - delta m !!! (oBS + i)%nat
                         + delta m !!! (oBA + i)%nat)).
Proof.
  destruct m as [A B D]. simpl. intros HA HB ????.
  eexists. split; [by apply SubtractAndAddToAll_spec|]. simpl.
  unfold sized in *. rewrite !length_sub_add_slice.
  repeat split; try done; rewrite lookup_sub_add_slice;
    by rewrite list_lookup_lookup_total_lt by lia.
Qed.

(** C3. With both slices in bounds, [AddToAll] completes, leaves [delta]
    as it was and leaves in every [inputA[i]] the old
    [inputA[i] + delta[oA + i]] and in every [inputB[i]] the old
    [inputB[i] + delta[oB + i]]; [SubtractFromAll] does the same with [-]
    for [+]. *)
Theorem AddToAll_SubtractFromAll_elementwise T n oA oB m :
  sized n (inputA m) → sized n (inputB m) →
  in_bounds (delta m) oA n → in_bounds (delta m) oB n →
  (∃ m', AddToAll T n oA oB m = Ok m' ∧
     delta m' = delta m ∧ sized n (inputA m') ∧ sized n (inputB m') ∧
     ∀ i, (i < n)%nat →
       inputA m' !! i =
         Some (convert T (inputA m !!! i + delta m !!! (oA + i)%nat)) ∧
       inputB m' !! i =
         Some (convert T (inputB m !!! i + delta m !!! (oB + i)%nat))) ∧
  (∃ m', SubtractFromAll T n oA oB m = Ok m' ∧
     delta m' = delta m ∧ sized n (inputA m') ∧ sized n (inputB m') ∧
     ∀ i, (i < n)%nat →
       inputA m' !! i =
         Some (convert T (inputA m !!! i - delta m !!! (oA + i)%nat)) ∧
       inputB m' !! i =
         Some (convert T (inputB m !!! i - delta m !!! (oB + i)%nat))).
Proof.
  destruct m as [A B D]. simpl. intros HA HB ??. split.
  - eexists. split; [by apply AddToAll_spec|]. simpl.
    unfold sized in *. rewrite !length_add_slice.
    repeat split; try done; rewrite lookup_add_slice;
      by rewrite list_lookup_lookup_total_lt by lia.
  - eexists. split; [by apply SubtractFromAll_spec|]. simpl.
    unfold sized in *. rewrite !length_sub_slice.
    repeat split; try done; rewrite lookup_sub_slice;
      by rewrite list_lookup_lookup_total_lt by lia.
Qed.

(** C4. With all four slices in bounds, [SubtractAndAddToAll] and
    [SubtractFromAll] followed by [AddToAll] both complete, in the same
    final state. *)
Theorem SubtractAndAddToAll_fuses T n oAS oAA oBS oBA m :
  sized n (inputA m) → sized n (inputB m) →
  in_bounds (delta m) oAS n → in_bounds (delta m) oAA n →
  in_bounds (delta m) oBS n → in_bounds (delta m) oBA n →
  ∃ m', SubtractAndAddToAll T n oAS oAA oBS oBA m = Ok m' ∧
    (SubtractFromAll T n oAS oBS m ≫= AddToAll T n oAA oBA) = Ok m'.
Proof.
  destruct m as [A B D]. simpl. intros HA HB ????.
  eexists. split; [by apply SubtractAndAddToAll_spec|].
  rewrite SubtractFromAll_spec, bind_Ok by done.
  rewrite AddToAll_spec; unfold sized; rewrite ?length_sub_slice; try done.
  by rewrite !add_slice_sub_slice.
Qed.

(** C5. On accumulators holding values of the integer type [T], [AddToAll]
    followed by [SubtractFromAll] with the same in-bounds offsets
    completes and restores the starting state. *)
Theorem AddToAll_SubtractFromAll_roundtrip T n oA oB m :
  sized n (inputA m) → sized n (inputB m) →
  typed T (inputA m) → typed T (inputB m) →
  in_bounds (delta m) oA n → in_bounds (delta m) oB n →
  (AddToAll T n oA oB m ≫= SubtractFromAll T n oA oB) = Ok m.
Proof.
  destruct m as [A B D]. simpl. intros HA HB HtA HtB ??.
  rewrite AddToAll_spec, bind_Ok by done.
  rewrite SubtractFromAll_spec; unfold sized; rewrite ?length_add_slice; try done.
  by rewrite !sub_slice_add_slice.
Qed.

(** Adding a slice of zeros, or subtracting it, keeps an array of [T]. *)
Lemma add_slice_zero T D o n (l : list Z) :
  sized n l → typed T l → in_bounds D o n → slice D o n = replicate n 0 →
  add_slice T D o l = l.
Proof.
  intros Hn Hl Hb Hz. apply list_eq. intros i. rewrite lookup_add_slice.
  destruct (l !! i) as [a|] eqn:Hi; simpl; [|done].
  assert (i < n)%nat as Hlt by (rewrite <- Hn; by eapply lookup_lt_Some).
  pose proof (lookup_slice D o n i Hb Hlt) as Hd.
  rewrite Hz, lookup_replicate_2 in Hd by done. injection Hd as <-.
  rewrite Z.add_0_r. f_equal. eapply convert_small, typed_lookup; done.
Qed.

Lemma sub_slice_zero T D o n (l : list Z) :
  sized n l → typed T l → in_bounds D o n → slice D o n = replicate n 0 →
  sub_slice T D o l = l.
Proof.
  intros Hn Hl Hb Hz. apply list_eq. intros i. rewrite lookup_sub_slice.
  destruct (l !! i) as [a|] eqn:Hi; simpl; [|done].
  assert (i < n)%nat as Hlt by (rewrite <- Hn; by eapply lookup_lt_Some).
  pose proof (lookup_slice D o n i Hb Hlt) as Hd.
  rewrite Hz, lookup_replicate_2 in Hd by done. injection Hd as <-.
  rewrite Z.sub_0_r. f_equal. eapply convert_small, typed_lookup; done.
Qed.

(** On an accumulator of zeros, adding two slices one after the other is
    adding their elementwise sum. *)
Lemma add_slice_twice T D D' o1 o2 o' n :
  in_bounds D o1 n → in_bounds D o2 n → in_bounds D' o' n →
  slice D' o' n = zip_with (add_assign T T) (slice D o1 n) (slice D o2 n) →
  add_slice T D o2 (add_slice T D o1 (replicate n 0)) =
  add_slice T D' o' (replicate n 0).
Proof.
  intros H1 H2 H' Hsum. apply list_eq. intros i.
  rewrite !lookup_add_slice.
  destruct (decide (i < n)%nat) as [Hi|Hi].
  - rewrite lookup_replicate_2 by done. simpl. f_equal.
    pose proof (lookup_slice D' o' n i H' Hi) as Hd.
    rewrite Hsum, lookup_zip_with in Hd.
    rewrite !lookup_slice in Hd by done. simpl in Hd. injection Hd as <-.
    rewrite add_assign_exact, convert_absorb, convert_absorb_r by lia.
    done.
  - assert (replicate n 0 !! i = None) as -> by (apply lookup_replicate_None; lia).
    done.
Qed.

(** C7. On zero-initialised accumulators, [AddToAll] at offset [o1] followed
    by [AddToAll] at offset [o2] leaves the accumulators that one
    [AddToAll] leaves with a delta table whose slice at the offset used
    is the elementwise sum, in [T], of the two slices. *)
Theorem AddToAll_composes T n o1 o2 o' D D' :
  in_bounds D o1 n → in_bounds D o2 n → in_bounds D' o' n →
  slice D' o' n = zip_with (add_assign T T) (slice D o1 n) (slice D o2 n) →
  ∃ m2 m', (AddToAll T n o1 o1 (mkMem (replicate n 0) (replicate n 0) D)
              ≫= AddToAll T n o2 o2) = Ok m2 ∧
    AddToAll T n o' o' (mkMem (replicate n 0) (replicate n 0) D') = Ok m' ∧
    inputA m2 = inputA m' ∧ inputB m2 = inputB m'.
Proof.
  intros H1 H2 H' Hsum.
  assert (sized n (replicate n 0)) as Hz by apply length_replicate.
  do 2 eexists. split; [|split].
  - rewrite AddToAll_spec, bind_Ok by done.
    apply AddToAll_spec; unfold sized; rewrite ?length_add_slice; done.
  - by apply AddToAll_spec.
  - simpl. by rewrite !(add_slice_twice T D D' o1 o2 o' n).
Qed.

(** C8. When the two slices of [delta] that are addressed hold only zeros,
    [AddToAll] and [SubtractFromAll] complete and leave accumulators of
    [T] values, and [delta], as they were. *)
Theorem zero_delta_unchanged T n oA oB m :
  sized n (inputA m) → sized n (inputB m) →
  typed T (inputA m) → typed T (inputB m) →
  in_bounds (delta m) oA n → in_bounds (delta m) oB n →
  slice (delta m) oA n = replicate n 0 →
  slice (delta m) oB n = replicate n 0 →
  AddToAll T n oA oB m = Ok m ∧ SubtractFromAll T n oA oB m = Ok m.
Proof.
  destruct m as [A B D]. simpl. intros HA HB HtA HtB HoA HoB HzA HzB. split.
  - rewrite AddToAll_spec by done.
    by rewrite (add_slice_zero T D oA n A), (add_slice_zero T D oB n B).
  - rewrite SubtractFromAll_spec by done.
    by rewrite (sub_slice_zero T D oA n A), (sub_slice_zero T D oB n B).
Qed.

(** C9. With the same in-bounds offset for the subtraction and the addition
    on each accumulator, [SubtractAndAddToAll] completes and leaves
    accumulators of [T] values, and [delta], as they were. *)
Theorem SubtractAndAddToAll_same_offsets T n oA oB m :
  sized n (inputA m) → sized n (inputB m) →
  typed T (inputA m) → typed T (inputB m) →
  in_bounds (delta m) oA n → in_bounds (delta m) oB n →
  SubtractAndAddToAll T n oA oA oB oB m = Ok m.
Proof.
  destruct m as [A B D]. simpl. intros HA HB HtA HtB HoA HoB.
  rewrite SubtractAndAddToAll_spec by done.
  by rewrite !sub_add_slice_same.
Qed.

(** C10. In each of the three update kernels, two runs from the same
    [inputA] and [delta] with the same offsets on the A side complete with
    the same [inputA], whatever [inputB] and the offsets on the B side
    are in each, as long as they are in bounds; and likewise with the two
    sides exchanged. *)
Theorem no_cross_talk T n A A' B B' D
    oA oA' oB oB' oAS oAS' oAA oAA' oBS oBS' oBA oBA' :
  sized n A → sized n A' → sized n B → sized n B' →
  in_bounds D oA n → in_bounds D oA' n → in_bounds D oB n → in_bounds D oB' n →
  in_bounds D oAS n → in_bounds D oAS' n → in_bounds D oAA n → in_bounds D oAA' n →
  in_bounds D oBS n → in_bounds D oBS' n → in_bounds D oBA n → in_bounds D oBA' n →
  (same_inputA (AddToAll T n oA oB (mkMem A B D))
               (AddToAll T n oA oB' (mkMem A B' D)) ∧
   same_inputA (SubtractFromAll T n oA oB (mkMem A B D))
               (SubtractFromAll T n oA oB' (mkMem A B' D)) ∧
   same_inputA (SubtractAndAddToAll T n oAS oAA oBS oBA (mkMem A B D))
               (SubtractAndAddToAll T n oAS oAA oBS' oBA' (mkMem A B' D))) ∧
  (same_inputB (AddToAll T n oA oB (mkMem A B D))
               (AddToAll T n oA' oB (mkMem A' B D)) ∧
   same_inputB (SubtractFromAll T n oA oB (mkMem A B D))
               (SubtractFromAll T n oA' oB (mkMem A' B D)) ∧
   same_inputB (SubtractAndAddToAll T n oAS oAA oBS oBA (mkMem A B D))
               (SubtractAndAddToAll T n oAS' oAA' oBS oBA (mkMem A' B D))).
Proof.
  intros. unfold same_inputA, same_inputB.
  repeat split; do 2 eexists;
    rewrite ?AddToAll_spec, ?SubtractFromAll_spec, ?SubtractAndAddToAll_spec
      by done; done.
Qed.

(** ** The forward pass against its functional model *)

Lemma big_sum_ext n (f g : nat → Z) :
  (∀ j, (j < n)%nat → f j = g j) → big_sum n f = big_sum n g.
Proof.
  induction n as [|n IH]; intros Hfg; simpl; [done|].
  rewrite IH, Hfg by (intros; try apply Hfg; lia). done.
Qed.

Lemma convert_0 T : convert T 0 = 0.
Proof. by destruct T. Qed.

Section Forward.
Variables T OT : int_type.
Variables n OutputSize : nat.
Variable Activate : Z → Z.
Variables A B W bias : list Z.
Variable o : nat.

Hypothesis sized_A : sized n A.
Hypothesis sized_B : sized n B.

(** The loop over [j] computes the sum of the [2 * n] products of
    weight block [i], reduced to [OT]. *)
Lemma forward_steps i :
  (S i * (n * 2) ≤ length W)%nat →
  for_range 0 n (forward_step T n OT Activate A B W (i * (n * 2))) 0 =
  Ok (convert OT (weighted_sum T n Activate A B W i)).
Proof using sized_A sized_B.
  intros HW. unfold sized in *.
  edestruct (for_range_invariant (λ k sum, sum = convert OT (big_sum k (λ j,
      mul T T (Activate (A !!! j)) (W !!! (i * (n * 2) + j)%nat) +
      mul T T (Activate (B !!! j)) (W !!! (n + i * (n * 2) + j)%nat)))))
    as (sum & -> & ->).
  { by rewrite convert_0. }
  { intros j sum Hj ->. eexists. split; [|reflexivity].
    unfold forward_step. simpl in *.
    rewrite !read_in_bounds by lia. simpl.
    rewrite !add_assign_exact, convert_absorb by lia.
    by rewrite <- Z.add_assoc, convert_absorb by lia. }
  simpl. do 2 f_equal. apply big_sum_ext. intros j Hj.
  do 4 f_equal; lia.
Qed.

Lemma forward_neuron_in_bounds i out :
  (S i * (n * 2) ≤ length W)%nat →
  (o + i < length bias)%nat → (o + i < length out)%nat →
  forward_neuron T n OT Activate A B W bias o i
    ((i * (n * 2))%nat, forward_output T n OT Activate A B W bias o i out) =
  Ok ((S i * (n * 2))%nat, forward_output T n OT Activate A B W bias o (S i) out).
Proof using sized_A sized_B.
  intros HW Hb Ho. unfold forward_neuron.
  rewrite forward_steps, bind_Ok by done.
  rewrite read_in_bounds, bind_Ok by done.
  unfold forward_output.
  erewrite write_updated; [|done|].
  - simpl. do 2 f_equal. lia.
  - simpl. unfold neuron_value, add.
    rewrite convert_convert by apply bits_common_l.
    by rewrite convert_absorb by lia.
Qed.

Lemma forward_neuron_bias_out_of_bounds i out :
  (S i * (n * 2) ≤ length W)%nat → (length bias ≤ o + i)%nat →
  forward_neuron T n OT Activate A B W bias o i
    ((i * (n * 2))%nat, forward_output T n OT Activate A B W bias o i out) =
  Fault (OutOfBounds Bias (o + i)).
Proof using sized_A sized_B.
  intros HW Hb. unfold forward_neuron.
  rewrite forward_steps, bind_Ok by done.
  by rewrite read_out_of_bounds.
Qed.

Lemma block_in_bounds i :
  (n * 2 * OutputSize ≤ length W)%nat → (i < OutputSize)%nat →
  (S i * (n * 2) ≤ length W)%nat.
Proof. intros HW Hi. nia. Qed.

(** With [bias] and [output] long enough for the offset, the call
    completes and has stored every neuron's value. *)
Lemma ActivateFlattenAndForward_spec out :
  (n * 2 * OutputSize ≤ length W)%nat →
  in_bounds bias o OutputSize → in_bounds out o OutputSize →
  ActivateFlattenAndForward T n OT OutputSize Activate A B W bias out o =
  Ok (forward_output T n OT Activate A B W bias o OutputSize out).
Proof using sized_A sized_B.
  unfold in_bounds. intros HW Hb Ho. unfold ActivateFlattenAndForward.
  edestruct (for_range_invariant
    (λ i st, st = ((i * (n * 2))%nat, forward_output T n OT Activate A B W bias o i out))) as (st & -> & ->).
  { unfold forward_output. by rewrite updated_0. }
  { intros i st Hi ->. eexists. split; [|reflexivity].
    apply forward_neuron_in_bounds; [apply block_in_bounds| |]; lia. }
  done.
Qed.

(** With [bias] of the declared length [OutputSize] and a positive
    offset, the call reads [bias] past its end. *)
Lemma ActivateFlattenAndForward_overrun out :
  (n * 2 * OutputSize ≤ length W)%nat →
  sized OutputSize bias → sized OutputSize out →
  (0 < OutputSize)%nat → (0 < o)%nat →
  ActivateFlattenAndForward T n OT OutputSize Activate A B W bias out o =
  Fault (OutOfBounds Bias (o `max` OutputSize)).
Proof using sized_A sized_B.
  unfold sized. intros HW Hb Ho Hpos Hoff. unfold ActivateFlattenAndForward.
  rewrite (for_range_fault
    (λ i st, st = ((i * (n * 2))%nat, forward_output T n OT Activate A B W bias o i out))
    _ 0 OutputSize (OutputSize - o) (OutOfBounds Bias (o `max` OutputSize)));
    [done|lia|unfold forward_output; by rewrite updated_0| |].
  - intros i st Hi ->. eexists. split; [|reflexivity].
    apply forward_neuron_in_bounds; [apply block_in_bounds| |]; lia.
  - intros st ->.
    rewrite forward_neuron_bias_out_of_bounds; [|apply block_in_bounds|]; try lia.
    do 2 f_equal. lia.
Qed.

End Forward.

Lemma lookup_forward_output T n OT Activate A B W bias o k (out : list Z) i :
  (i < k)%nat → (o + i < length out)%nat →
  forward_output T n OT Activate A B W bias o k out !! (o + i)%nat =
  Some (neuron_value T n OT Activate A B W bias o i).
Proof.
  intros Hi Ho. unfold forward_output. rewrite lookup_updated.
  rewrite (list_lookup_lookup_total_lt out _ Ho). simpl.
  rewrite decide_True by lia. do 2 f_equal. lia.
Qed.

(** ** Properties of the forward pass *)

(** C1. Given arrays of the declared sizes, and [bias] and [output] reaching
    to [o + OutputSize], [ActivateFlattenAndForward] completes and leaves in
    every [output[o + i]], [i < OutputSize], the sum over [j < InputSize] of
    [Activate(inputA[j]) * weight[i * 2 * InputSize + j]] and
    [Activate(inputB[j]) * weight[i * 2 * InputSize + InputSize + j]],
    plus [bias[o + i]], reduced to the type [OT]. *)
Theorem ActivateFlattenAndForward_correct
    T OT InputSize OutputSize Activate inputA inputB weight bias output o :
  sized InputSize inputA → sized InputSize inputB →
  sized (InputSize * 2 * OutputSize) weight →
  in_bounds bias o OutputSize → in_bounds output o OutputSize →
  ∃ output',
    ActivateFlattenAndForward T InputSize OT OutputSize Activate
      inputA inputB weight bias output o = Ok output' ∧
    length output' = length output ∧
    ∀ i, (i < OutputSize)%nat →
      output' !! (o + i)%nat =
      Some (convert OT
        (big_sum InputSize (λ j,
           mul T T (Activate (inputA !!! j))
             (weight !!! (i * 2 * InputSize + j)%nat) +
           mul T T (Activate (inputB !!! j))
             (weight !!! (i * 2 * InputSize + InputSize + j)%nat))
         + bias !!! (o + i)%nat)).
Proof.
  intros HA HB HW Hb Ho. eexists. split; [|split].
  - apply ActivateFlattenAndForward_spec; try done. unfold sized in HW. lia.
  - apply length_updated.
  - intros i Hi. unfold in_bounds in Ho.
    rewrite lookup_forward_output by lia. done.
Qed.

(** C6. With [bias] and [output] of the size their types declare,
    [OutputSize], and an offset other than zero, [ActivateFlattenAndForward]
    does not stay within its arrays: the first access past an end is
    the read of [bias] at index [max o OutputSize]. *)
Theorem ActivateFlattenAndForward_offset_out_of_bounds
    T OT InputSize OutputSize Activate inputA inputB weight bias output o :
  sized InputSize inputA → sized InputSize inputB →
  sized (InputSize * 2 * OutputSize) weight →
  sized OutputSize bias → sized OutputSize output →
  (0 < OutputSize)%nat → (0 < o)%nat →
  ActivateFlattenAndForward T InputSize OT OutputSize Activate
    inputA inputB weight bias output o =
  Fault (OutOfBounds Bias (o `max` OutputSize)).
Proof.
  intros HA HB HW Hb Ho ??.
  apply ActivateFlattenAndForward_overrun; try done. unfold sized in HW. lia.
Qed.

(** ** The properties on concrete arrays *)

Lemma ActivateFlattenAndForward_correct_witness :
  ∃ output',
    ActivateFlattenAndForward I16 2 I32 1 id [1; 2] [3; 4] [1; 1; 1; 1] [5] [0] 0
      = Ok output' ∧
    output' !! 0%nat = Some 15.
Proof.
  destruct (ActivateFlattenAndForward_correct I16 I32 2 1 id
              [1; 2] [3; 4] [1; 1; 1; 1] [5] [0] 0)
    as (output' & Hrun & _ & Hi);
    [reflexivity | reflexivity | reflexivity
    | unfold in_bounds; simpl; lia | unfold in_bounds; simpl; lia | ].
  exists output'. split; [exact Hrun|]. apply (Hi 0%nat). lia.
Defined.

Lemma ActivateFlattenAndForward_offset_out_of_bounds_witness :
  ActivateFlattenAndForward I16 2 I32 1 id [1; 2] [3; 4] [1; 1; 1; 1] [5] [0] 1 =
  Fault (OutOfBounds Bias 1).
Proof.
  apply (ActivateFlattenAndForward_offset_out_of_bounds I16 I32 2 1 id
           [1; 2] [3; 4] [1; 1; 1; 1] [5] [0] 1);
    reflexivity || lia.
Defined.

Lemma SubtractAndAddToAll_elementwise_witness :
  ∃ m', SubtractAndAddToAll I16 2 0 1 1 0
          (mkMem [32767; 2] [3; -32768] [-10; 20; 30]) = Ok m' ∧
    inputA m' !! 0%nat = Some (-32739) ∧ inputB m' !! 1%nat = Some 32758.
Proof.
  destruct (SubtractAndAddToAll_elementwise I16 2 0 1 1 0
              (mkMem [32767; 2] [3; -32768] [-10; 20; 30]))
    as (m' & Hrun & _ & _ & _ & Hi);
    [reflexivity | reflexivity | unfold in_bounds; simpl; lia..|].
  exists m'. split; [exact Hrun|]. split.
  - apply (Hi 0%nat). lia.
  - apply (Hi 1%nat). lia.
Defined.

Lemma AddToAll_SubtractFromAll_elementwise_witness :
  (∃ m', AddToAll I16 2 1 0 (mkMem [32767; 2] [3; 4] [10; 20; 30]) = Ok m' ∧
     inputA m' !! 0%nat = Some (-32749) ∧ inputB m' !! 1%nat = Some 24) ∧
  (∃ m', SubtractFromAll I16 2 1 0 (mkMem [32767; 2] [3; 4] [10; 20; 30]) = Ok m' ∧
     inputA m' !! 0%nat = Some 32747 ∧ inputB m' !! 1%nat = Some (-16)).
Proof.
  destruct (AddToAll_SubtractFromAll_elementwise I16 2 1 0
              (mkMem [32767; 2] [3; 4] [10; 20; 30]))
    as [(m1 & Hrun1 & _ & _ & _ & H1) (m2 & Hrun2 & _ & _ & _ & H2)];
    [reflexivity | reflexivity | unfold in_bounds; simpl; lia..|].
  split.
  - exists m1. split; [exact Hrun1|]. split; [apply (H1 0%nat)|apply (H1 1%nat)]; lia.
  - exists m2. split; [exact Hrun2|]. split; [apply (H2 0%nat)|apply (H2 1%nat)]; lia.
Defined.

Lemma SubtractAndAddToAll_fuses_witness :
  ∃ m', SubtractAndAddToAll I16 2 0 1 1 0
          (mkMem [-32768; 2] [3; 32767] [10; 20; -30]) = Ok m' ∧
    (SubtractFromAll I16 2 0 1 (mkMem [-32768; 2] [3; 32767] [10; 20; -30])
       ≫= AddToAll I16 2 1 0) = Ok m'.
Proof.
  apply (SubtractAndAddToAll_fuses I16 2 0 1 1 0
           (mkMem [-32768; 2] [3; 32767] [10; 20; -30]));
    reflexivity || (unfold in_bounds; simpl; lia).
Defined.

Lemma typed_I16_example :
  typed I16 [32767; -5] ∧ typed I16 [3; -32768].
Proof. split; repeat constructor; by vm_compute. Qed.

Lemma AddToAll_SubtractFromAll_roundtrip_witness :
  (AddToAll I16 2 1 0 (mkMem [32767; -5] [3; -32768] [10; 20; 30])
     ≫= SubtractFromAll I16 2 1 0) =
  Ok (mkMem [32767; -5] [3; -32768] [10; 20; 30]).
Proof.
  apply (AddToAll_SubtractFromAll_roundtrip I16 2 1 0
           (mkMem [32767; -5] [3; -32768] [10; 20; 30]));
    first [ reflexivity | apply typed_I16_example
          | unfold in_bounds; simpl; lia ].
Defined.

Lemma AddToAll_composes_witness :
  ∃ m2 m',
    (AddToAll I16 2 0 0 (mkMem [0; 0] [0; 0] [30000; 1; 30000; 2])
       ≫= AddToAll I16 2 2 2) = Ok m2 ∧
    AddToAll I16 2 1 1 (mkMem [0; 0] [0; 0] [7; -5536; 3]) = Ok m' ∧
    inputA m2 = inputA m' ∧ inputB m2 = inputB m'.
Proof.
  apply (AddToAll_composes I16 2 0 2 1 [30000; 1; 30000; 2] [7; -5536; 3]);
    reflexivity || (unfold in_bounds; simpl; lia).
Defined.

Lemma zero_delta_unchanged_witness :
  AddToAll I16 2 1 3 (mkMem [32767; -5] [3; -32768] [9; 0; 0; 0; 0]) =
    Ok (mkMem [32767; -5] [3; -32768] [9; 0; 0; 0; 0]) ∧
  SubtractFromAll I16 2 1 3 (mkMem [32767; -5] [3; -32768] [9; 0; 0; 0; 0]) =
    Ok (mkMem [32767; -5] [3; -32768] [9; 0; 0; 0; 0]).
Proof.
  apply (zero_delta_unchanged I16 2 1 3
           (mkMem [32767; -5] [3; -32768] [9; 0; 0; 0; 0]));
    first [ reflexivity | apply typed_I16_example
          | unfold in_bounds; simpl; lia ].
Defined.

Lemma SubtractAndAddToAll_same_offsets_witness :
  SubtractAndAddToAll I16 2 1 1 0 0 (mkMem [32767; -5] [3; -32768] [10; 20; 30]) =
  Ok (mkMem [32767; -5] [3; -32768] [10; 20; 30]).
Proof.
  apply (SubtractAndAddToAll_same_offsets I16 2 1 0
           (mkMem [32767; -5] [3; -32768] [10; 20; 30]));
    first [ reflexivity | apply typed_I16_example
          | unfold in_bounds; simpl; lia ].
Defined.

Lemma no_cross_talk_witness :
  same_inputA (AddToAll I16 2 1 0 (mkMem [1; 2] [3; 4] [10; 20; 30]))
              (AddToAll I16 2 1 1 (mkMem [1; 2] [7; 8] [10; 20; 30])) ∧
  same_inputB (SubtractAndAddToAll I16 2 0 1 1 0 (mkMem [1; 2] [3; 4] [10; 20; 30]))
              (SubtractAndAddToAll I16 2 1 1 1 0 (mkMem [5; 6] [3; 4] [10; 20; 30])).
Proof.
  destruct (no_cross_talk I16 2 [1; 2] [5; 6] [3; 4] [7; 8] [10; 20; 30]
              1 0 0 1 0 1 1 1 1 1 0 0)
    as [(HA & _ & _) (_ & _ & HB)];
    [reflexivity | reflexivity | reflexivity | reflexivity
    | unfold in_bounds; simpl; lia.. | ].
  split; [exact HA | exact HB].
Defined.

(** ** Further properties of the update kernels *)

(** Additions of slices can be exchanged. *)
Lemma add_slice_comm T D o1 o2 (l : list Z) :
  add_slice T D o2 (add_slice T D o1 l) = add_slice T D o1 (add_slice T D o2 l).
Proof.
  apply list_eq. intros i. rewrite !lookup_add_slice.
  destruct (l !! i); simpl; [|done].
  rewrite !convert_absorb by lia. do 2 f_equal. lia.
Qed.

(** An addition and a subtraction of slices can be exchanged. *)
Lemma sub_slice_add_slice_comm T D o1 o2 (l : list Z) :
  sub_slice T D o2 (add_slice T D o1 l) = add_slice T D o1 (sub_slice T D o2 l).
Proof.
  apply list_eq. intros i.
  rewrite !lookup_sub_slice, !lookup_add_slice, lookup_sub_slice.
  destruct (l !! i); simpl; [|done].
  rewrite convert_absorb_sub, convert_absorb by lia. do 2 f_equal. lia.
Qed.

(** A fused update is undone by the fused update with the offsets
    exchanged. *)
Lemma sub_add_slice_undo T D oS oA (l : list Z) :
  typed T l → sub_add_slice T D oA oS (sub_add_slice T D oS oA l) = l.
Proof.
  intros Hl. apply list_eq. intros i. rewrite !lookup_sub_add_slice.
  destruct (l !! i) as [a|] eqn:Hi; simpl; [|done]. f_equal.
  set (s := D !!! (oS + i)%nat). set (t := D !!! (oA + i)%nat).
  replace (convert T (a - s + t) - t + s)
    with (convert T (a - s + t) + (s - t)) by lia.
  rewrite convert_absorb by lia.
  replace (a - s + t + (s - t)) with a by lia.
  eapply convert_small, typed_lookup; done.
Qed.

(** On any accumulator, adding two slices one after the other is adding
    their elementwise sum. *)
Lemma add_slice_add_slice T D D' o1 o2 o' n (l : list Z) :
  sized n l →
  in_bounds D o1 n → in_bounds D o2 n → in_bounds D' o' n →
  slice D' o' n = zip_with (add_assign T T) (slice D o1 n) (slice D o2 n) →
  add_slice T D o2 (add_slice T D o1 l) = add_slice T D' o' l.
Proof.
  intros Hn H1 H2 H' Hsum. apply list_eq. intros i.
  rewrite !lookup_add_slice.
  destruct (l !! i) as [a|] eqn:Hl; simpl; [|done].
  assert (i < n)%nat as Hi by (rewrite <- Hn; by eapply lookup_lt_Some).
  pose proof (lookup_slice D' o' n i H' Hi) as Hd.
  rewrite Hsum, lookup_zip_with in Hd.
  rewrite !lookup_slice in Hd by done. simpl in Hd. injection Hd as <-.
  rewrite add_assign_exact, convert_absorb, convert_absorb_r by lia.
  do 2 f_equal. lia.
Qed.

(** X1. On accumulators of [T] values, [SubtractFromAll] followed by
    [AddToAll] with the same in-bounds offsets completes and restores the
    starting state. *)
Theorem SubtractFromAll_AddToAll_roundtrip T n oA oB m :
  sized n (inputA m) → sized n (inputB m) →
  typed T (inputA m) → typed T (inputB m) →
  in_bounds (delta m) oA n → in_bounds (delta m) oB n →
  (SubtractFromAll T n oA oB m ≫= AddToAll T n oA oB) = Ok m.
Proof.
  destruct m as [A B D]. simpl. intros HA HB HtA HtB ??.
  rewrite SubtractFromAll_spec, bind_Ok by done.
  rewrite AddToAll_spec; unfold sized; rewrite ?length_sub_slice; try done.
  by rewrite !add_slice_sub_slice, !sub_add_slice_same.
Qed.

(** X2. Two [AddToAll] calls with in-bounds offsets complete in the same
    final state in either order. *)
Theorem AddToAll_commutes T n oA oB pA pB m :
  sized n (inputA m) → sized n (inputB m) →
  in_bounds (delta m) oA n → in_bounds (delta m) oB n →
  in_bounds (delta m) pA n → in_bounds (delta m) pB n →
  ∃ m', (AddToAll T n oA oB m ≫= AddToAll T n pA pB) = Ok m' ∧
        (AddToAll T n pA pB m ≫= AddToAll T n oA oB) = Ok m'.
Proof.
  destruct m as [A B D]. simpl. intros HA HB ????.
  eexists. split.
  - rewrite AddToAll_spec, bind_Ok by done.
    apply AddToAll_spec; unfold sized; rewrite ?length_add_slice; done.
  - rewrite AddToAll_spec, bind_Ok by done.
    rewrite AddToAll_spec; unfold sized; rewrite ?length_add_slice; try done.
    by rewrite (add_slice_comm T D pA oA), (add_slice_comm T D pB oB).
Qed.

(** X3. An [AddToAll] and a [SubtractFromAll] with in-bounds offsets
    complete in the same final state in either order. *)
Theorem AddToAll_SubtractFromAll_commute T n oA oB pA pB m :
  sized n (inputA m) → sized n (inputB m) →
  in_bounds (delta m) oA n → in_bounds (delta m) oB n →
  in_bounds (delta m) pA n → in_bounds (delta m) pB n →
  ∃ m', (AddToAll T n oA oB m ≫= SubtractFromAll T n pA pB) = Ok m' ∧
        (SubtractFromAll T n pA pB m ≫= AddToAll T n oA oB) = Ok m'.
Proof.
  destruct m as [A B D]. simpl. intros HA HB ????.
  eexists. split.
  - rewrite AddToAll_spec, bind_Ok by done.
    apply SubtractFromAll_spec; unfold sized; rewrite ?length_add_slice; done.
  - rewrite SubtractFromAll_spec, bind_Ok by done.
    rewrite AddToAll_spec; unfold sized; rewrite ?length_sub_slice; try done.
    by rewrite !sub_slice_add_slice_comm.
Qed.

(** X4. On accumulators of [T] values, [SubtractAndAddToAll] followed by
    [SubtractAndAddToAll] with the subtracted and the added offsets
    exchanged completes and restores the starting state. *)
Theorem SubtractAndAddToAll_undo T n oAS oAA oBS oBA m :
  sized n (inputA m) → sized n (inputB m) →
  typed T (inputA m) → typed T (inputB m) →
  in_bounds (delta m) oAS n → in_bounds (delta m) oAA n →
  in_bounds (delta m) oBS n → in_bounds (delta m) oBA n →
  (SubtractAndAddToAll T n oAS oAA oBS oBA m
     ≫= SubtractAndAddToAll T n oAA oAS oBA oBS) = Ok m.
Proof.
  destruct m as [A B D]. simpl. intros HA HB HtA HtB ????.
  rewrite SubtractAndAddToAll_spec, bind_Ok by done.
  rewrite SubtractAndAddToAll_spec;
    unfold sized; rewrite ?length_sub_add_slice; try done.
  by rewrite !sub_add_slice_undo.
Qed.

(** X5. From any accumulators, [AddToAll] at offsets [oA], [oB] followed by
    [AddToAll] at offsets [pA], [pB] leaves the accumulators that one
    [AddToAll] leaves with a delta table whose slices at the offsets used
    are the elementwise sums, in [T], of the slices added on each side. *)
Theorem AddToAll_twice_is_once T n oA oB pA pB qA qB A B D D' :
  sized n A → sized n B →
  in_bounds D oA n → in_bounds D oB n → in_bounds D pA n → in_bounds D pB n →
  in_bounds D' qA n → in_bounds D' qB n →
  slice D' qA n = zip_with (add_assign T T) (slice D oA n) (slice D pA n) →
  slice D' qB n = zip_with (add_assign T T) (slice D oB n) (slice D pB n) →
  ∃ m2 m', (AddToAll T n oA oB (mkMem A B D) ≫= AddToAll T n pA pB) = Ok m2 ∧
    AddToAll T n qA qB (mkMem A B D') = Ok m' ∧
    inputA m2 = inputA m' ∧ inputB m2 = inputB m'.
Proof.
  intros HA HB ?????? HsA HsB. do 2 eexists. split; [|split].
  - rewrite AddToAll_spec, bind_Ok by done.
    apply AddToAll_spec; unfold sized; rewrite ?length_add_slice; done.
  - by apply AddToAll_spec.
  - simpl. by rewrite (add_slice_add_slice T D D' oA pA qA n A),
      (add_slice_add_slice T D D' oB pB qB n B).
Qed.

(** ** When the kernels stay within their arrays *)

(** In a loop that completes, every iteration completed, from a state that
    satisfies any invariant [P] the completed iterations preserve; and [P]
    holds at the end. *)
Lemma for_range_completes {St} (P : nat → St → Prop) body (start n : nat)
    (s s' : St) :
  for_range start n body s = Ok s' →
  P start s →
  (∀ j t t', (start ≤ j < start + n)%nat → P j t → body j t = Ok t' → P (S j) t') →
  P (start + n)%nat s' ∧
  ∀ i, (start ≤ i < start + n)%nat → ∃ t t', P i t ∧ body i t = Ok t'.
Proof.
  revert start s. induction n as [|n IH]; intros start s Hrun HP Hstep.
  - simpl in Hrun. injection Hrun as <-. rewrite Nat.add_0_r.
    split; [done|]. intros i Hi. lia.
  - simpl in Hrun. destruct (body start s) as [s1|] eqn:Hbody; [|done].
    rewrite bind_Ok in Hrun.
    destruct (IH (S start) s1) as [Hend Hall]; [done|by eapply Hstep; [lia|..]| |].
    { intros j t t' Hj. apply Hstep. lia. }
    split.
    + by replace (start + S n)%nat with (S start + n)%nat by lia.
    + intros i Hi. destruct (decide (i = start)) as [->|Hne]; [by eauto|].
      apply Hall. lia.
Qed.

(** What a completed statement of a loop body tells. *)
Local Ltac invert_Ok H :=
  unfold read, write in H;
  repeat (simpl in H;
          match type of H with
          | (match ?x with _ => _ end ≫= _) = Ok _ => destruct x eqn:?
          | (match ?x with _ => _ end) = Ok _ => destruct x eqn:?
          | (Ok _ ≫= _) = Ok _ => rewrite bind_Ok in H
          | (Fault _ ≫= _) = Ok _ => discriminate H
          | Fault _ = Ok _ => discriminate H
          | (if ?c then _ else _) ≫= _ = Ok _ => destruct c
          | (for_range ?a ?b ?c ?d ≫= _) = Ok _ =>
              destruct (for_range a b c d) eqn:?
          end).

Section Defined.
Variable T : int_type.
Variable n : nat.
Hypothesis n_pos : (0 < n)%nat.

(** The delta index read by a completed iteration is within [delta]. *)
Local Ltac delta_read_in_bounds :=
  match goal with
  | H : delta _ !! _ = Some _ |- _ => apply lookup_lt_Some in H; lia
  end.

Lemma AddToAll_in_bounds oA oB m m' :
  AddToAll T n oA oB m = Ok m' →
  in_bounds (delta m) oA n ∧ in_bounds (delta m) oB n.
Proof using n_pos.
  unfold AddToAll. intros Hrun.
  destruct (for_range 0 n _ m) as [m1|] eqn:HloopA; [|done].
  rewrite bind_Ok in Hrun.
  eapply (for_range_completes (λ _ t, delta t = delta m)) in HloopA
    as [HD Hlast]; [|done|].
  2:{ intros j t t' _ Ht Hbody. invert_Ok Hbody. by injection Hbody as <-. }
  eapply (for_range_completes (λ _ t, delta t = delta m)) in Hrun
    as [_ Hlast']; [|done|].
  2:{ intros j t t' _ Ht Hbody. invert_Ok Hbody. by injection Hbody as <-. }
  destruct (Hlast (n - 1)%nat) as (t & t' & Ht & Hbody); [lia|].
  destruct (Hlast' (n - 1)%nat) as (u & u' & Hu & Hbody'); [lia|].
  invert_Ok Hbody. invert_Ok Hbody'.
  unfold in_bounds. rewrite <- Ht at 1. rewrite <- Hu.
  split; delta_read_in_bounds.
Qed.

Lemma SubtractFromAll_in_bounds oA oB m m' :
  SubtractFromAll T n oA oB m = Ok m' →
  in_bounds (delta m) oA n ∧ in_bounds (delta m) oB n.
Proof using n_pos.
  unfold SubtractFromAll. intros Hrun.
  destruct (for_range 0 n _ m) as [m1|] eqn:HloopA; [|done].
  rewrite bind_Ok in Hrun.
  eapply (for_range_completes (λ _ t, delta t = delta m)) in HloopA
    as [HD Hlast]; [|done|].
  2:{ intros j t t' _ Ht Hbody. invert_Ok Hbody. by injection Hbody as <-. }
  eapply (for_range_completes (λ _ t, delta t = delta m)) in Hrun
    as [_ Hlast']; [|done|].
  2:{ intros j t t' _ Ht Hbody. invert_Ok Hbody. by injection Hbody as <-. }
  destruct (Hlast (n - 1)%nat) as (t & t' & Ht & Hbody); [lia|].
  destruct (Hlast' (n - 1)%nat) as (u & u' & Hu & Hbody'); [lia|].
  invert_Ok Hbody. invert_Ok Hbody'.
  unfold in_bounds. rewrite <- Ht at 1. rewrite <- Hu.
  split; delta_read_in_bounds.
Qed.

Lemma SubtractAndAddToAll_in_bounds oAS oAA oBS oBA m m' :
  SubtractAndAddToAll T n oAS oAA oBS oBA m = Ok m' →
  (in_bounds (delta m) oAS n ∧ in_bounds (delta m) oAA n) ∧
  (in_bounds (delta m) oBS n ∧ in_bounds (delta m) oBA n).
Proof using n_pos.
  unfold SubtractAndAddToAll. intros Hrun.
  eapply (for_range_completes (λ _ t, delta t = delta m)) in Hrun
    as [_ Hlast]; [|done|].
  2:{ intros j t t' _ Ht Hbody. invert_Ok Hbody. by injection Hbody as <-. }
  destruct (Hlast (n - 1)%nat) as (t & t' & Ht & Hbody); [lia|].
  invert_Ok Hbody. simpl in *.
  unfold in_bounds. rewrite <- Ht.
  repeat split; delta_read_in_bounds.
Qed.

End Defined.

(** X6. On accumulators of the declared, positive length, each update
    kernel completes exactly when every slice of [delta] it is pointed at
    lies within [delta]; otherwise it runs into an access outside an
    array. *)
Theorem update_kernels_complete_iff T n oA oB oAS oAA oBS oBA m :
  (0 < n)%nat → sized n (inputA m) → sized n (inputB m) →
  ((∃ m', AddToAll T n oA oB m = Ok m') ↔
     in_bounds (delta m) oA n ∧ in_bounds (delta m) oB n) ∧
  ((∃ m', SubtractFromAll T n oA oB m = Ok m') ↔
     in_bounds (delta m) oA n ∧ in_bounds (delta m) oB n) ∧
  ((∃ m', SubtractAndAddToAll T n oAS oAA oBS oBA m = Ok m') ↔
     (in_bounds (delta m) oAS n ∧ in_bounds (delta m) oAA n) ∧
     (in_bounds (delta m) oBS n ∧ in_bounds (delta m) oBA n)).
Proof.
  intros Hn HA HB. split; [|split]; split.
  - intros [m' Hrun]. by eapply AddToAll_in_bounds.
  - destruct m as [A B D]. intros [??]. eexists. by apply AddToAll_spec.
  - intros [m' Hrun]. by eapply SubtractFromAll_in_bounds.
  - destruct m as [A B D]. intros [??]. eexists. by apply SubtractFromAll_spec.
  - intros [m' Hrun]. by eapply SubtractAndAddToAll_in_bounds.
  - destruct m as [A B D]. intros [[??] [??]]. eexists.
    by apply SubtractAndAddToAll_spec.
Qed.

Lemma ActivateFlattenAndForward_in_bounds
    T OT n OutputSize Activate A B W bias out o out' :
  (0 < OutputSize)%nat →
  ActivateFlattenAndForward T n OT OutputSize Activate A B W bias out o = Ok out' →
  in_bounds bias o OutputSize ∧ in_bounds out o OutputSize.
Proof.
  intros Hpos. unfold ActivateFlattenAndForward. intros Hrun.
  destruct (for_range 0 OutputSize _ _) as [st|] eqn:Hloop; [|done].
  eapply (for_range_completes (λ _ st, length st.2 = length out)) in Hloop
    as [_ Hlast]; [|done|].
  2:{ intros j [stride t] t' _ Ht Hbody. unfold forward_neuron in Hbody.
      invert_Ok Hbody; try done. injection Hbody as <-. simpl in *.
      by rewrite length_insert. }
  destruct (Hlast (OutputSize - 1)%nat) as ([stride t] & t' & Ht & Hbody); [lia|].
  unfold forward_neuron in Hbody. invert_Ok Hbody; try done. simpl in *.
  unfold in_bounds. split; [|lia].
  match goal with
  | H : bias !! _ = Some _ |- _ => apply lookup_lt_Some in H; lia
  end.
Qed.

(** X7. With inputs and weights of the declared sizes and at least one
    output neuron, [ActivateFlattenAndForward] completes exactly when both
    [bias] and [output] reach to [o + OutputSize]; otherwise it runs into
    an access outside an array. *)
Theorem ActivateFlattenAndForward_completes_iff
    T OT InputSize OutputSize Activate inputA inputB weight bias output o :
  (0 < OutputSize)%nat →
  sized InputSize inputA → sized InputSize inputB →
  sized (InputSize * 2 * OutputSize) weight →
  (∃ output', ActivateFlattenAndForward T InputSize OT OutputSize Activate
                inputA inputB weight bias output o = Ok output') ↔
  in_bounds bias o OutputSize ∧ in_bounds output o OutputSize.
Proof.
  intros Hpos HA HB HW. split.
  - intros [out' Hrun]. by eapply ActivateFlattenAndForward_in_bounds.
  - intros [??]. eexists.
    apply ActivateFlattenAndForward_spec; try done. unfold sized in HW. lia.
Qed.

(** X8. [ActivateFlattenAndForward] keeps the length of [output], leaves
    every element outside [o, o + OutputSize) as it was, and what it stores
    inside does not depend on what [output] held. *)
Theorem ActivateFlattenAndForward_frame
    T OT InputSize OutputSize Activate inputA inputB weight bias output output2 o :
  sized InputSize inputA → sized InputSize inputB →
  sized (InputSize * 2 * OutputSize) weight →
  in_bounds bias o OutputSize →
  in_bounds output o OutputSize → in_bounds output2 o OutputSize →
  ∃ output' output2',
    ActivateFlattenAndForward T InputSize OT OutputSize Activate
      inputA inputB weight bias output o = Ok output' ∧
    ActivateFlattenAndForward T InputSize OT OutputSize Activate
      inputA inputB weight bias output2 o = Ok output2' ∧
    length output' = length output ∧
    (∀ j, ¬ (o ≤ j < o + OutputSize)%nat → output' !! j = output !! j) ∧
    (∀ j, (o ≤ j < o + OutputSize)%nat → output' !! j = output2' !! j).
Proof.
  intros HA HB HW Hb Ho Ho2. unfold sized in HW.
  do 2 eexists. split; [|split; [|split; [|split]]].
  - apply ActivateFlattenAndForward_spec; try done. lia.
  - apply ActivateFlattenAndForward_spec; try done. lia.
  - apply length_updated.
  - intros j Hj. unfold forward_output. rewrite lookup_updated.
    destruct (output !! j); simpl; [|done]. by rewrite decide_False.
  - intros j Hj. unfold in_bounds in *.
    replace j with (o + (j - o))%nat by lia.
    by rewrite !lookup_forward_output by lia.
Qed.

Lemma updated_ext g g' o k (l : list Z) :
  (∀ i a, (i < k)%nat → g i a = g' i a) → updated g o k l = updated g' o k l.
Proof.
  intros Hg. apply list_eq. intros j. rewrite !lookup_updated.
  destruct (l !! j); simpl; [|done].
  destruct (decide (o ≤ j < o + k)%nat); [|done]. f_equal. apply Hg. lia.
Qed.

Lemma typed_lookup_total T (l : list Z) i :
  typed T l → (i < length l)%nat → in_range T (l !!! i).
Proof.
  intros Hl Hi. eapply typed_lookup; [done|].
  by apply list_lookup_lookup_total_lt.
Qed.

(** For an element type narrower than [int], the weighted sum is the sum
    of the products over the integers. *)
Lemma weighted_sum_exact T n Activate A B W i OutputSize :
  bits T <= 16 →
  sized n A → sized n B → sized (n * 2 * OutputSize) W →
  typed T A → typed T B → typed T W →
  (∀ x, in_range T x → in_range T (Activate x)) →
  (i < OutputSize)%nat →
  weighted_sum T n Activate A B W i =
  big_sum n (λ j,
    Activate (A !!! j) * W !!! (i * 2 * n + j)%nat +
    Activate (B !!! j) * W !!! (i * 2 * n + n + j)%nat).
Proof.
  unfold sized. intros HT HA HB HW HtA HtB HtW Hact Hi.
  apply big_sum_ext. intros j Hj.
  rewrite !mul_exact; try done;
    try (apply Hact); apply typed_lookup_total; try done; try lia; nia.
Qed.

(** X9. For an element type narrower than [int] and an activation that
    maps values of [T] to values of [T], every [output[o + i]] is the exact
    integer [sum of Activate(inputA[j]) * weight[..] and
    Activate(inputB[j]) * weight[..], plus bias[o + i]] whenever that
    integer is a value of [OT], even if the running sum left the range of
    [OT] on the way. *)
Theorem ActivateFlattenAndForward_exact
    T OT InputSize OutputSize Activate inputA inputB weight bias output o :
  bits T <= 16 →
  sized InputSize inputA → sized InputSize inputB →
  sized (InputSize * 2 * OutputSize) weight →
  typed T inputA → typed T inputB → typed T weight →
  (∀ x, in_range T x → in_range T (Activate x)) →
  in_bounds bias o OutputSize → in_bounds output o OutputSize →
  (∀ i, (i < OutputSize)%nat →
     in_range OT (exact_neuron_value InputSize Activate inputA inputB weight bias o i)) →
  ∃ output',
    ActivateFlattenAndForward T InputSize OT OutputSize Activate
      inputA inputB weight bias output o = Ok output' ∧
    ∀ i, (i < OutputSize)%nat →
      output' !! (o + i)%nat =
      Some (exact_neuron_value InputSize Activate inputA inputB weight bias o i).
Proof.
  intros HT HA HB HW HtA HtB HtW Hact Hb Ho Hfit.
  eexists. split.
  - apply ActivateFlattenAndForward_spec; try done. unfold sized in HW. lia.
  - intros i Hi. unfold in_bounds in Ho.
    rewrite lookup_forward_output by lia. f_equal.
    unfold neuron_value.
    rewrite (weighted_sum_exact T InputSize Activate inputA inputB weight i
               OutputSize) by done.
    apply convert_small, Hfit, Hi.
Qed.

(** X10. The layout of a weight block is the weights of [inputA] followed
    by those of [inputB]: exchanging the two inputs together with the two
    halves of every weight block gives the same output. *)
Theorem ActivateFlattenAndForward_swap
    T OT InputSize OutputSize Activate inputA inputB weight weight' bias output o :
  sized InputSize inputA → sized InputSize inputB →
  sized (InputSize * 2 * OutputSize) weight →
  sized (InputSize * 2 * OutputSize) weight' →
  (∀ i j, (i < OutputSize)%nat → (j < InputSize)%nat →
     weight' !!! (i * 2 * InputSize + j)%nat =
       weight !!! (i * 2 * InputSize + InputSize + j)%nat ∧
     weight' !!! (i * 2 * InputSize + InputSize + j)%nat =
       weight !!! (i * 2 * InputSize + j)%nat) →
  in_bounds bias o OutputSize → in_bounds output o OutputSize →
  ∃ output',
    ActivateFlattenAndForward T InputSize OT OutputSize Activate
      inputA inputB weight bias output o = Ok output' ∧
    ActivateFlattenAndForward T InputSize OT OutputSize Activate
      inputB inputA weight' bias output o = Ok output'.
Proof.
  intros HA HB HW HW' Hswap Hb Ho. unfold sized in HW, HW'.
  eexists. split.
  - apply ActivateFlattenAndForward_spec; try done. lia.
  - rewrite ActivateFlattenAndForward_spec by (done || lia).
    f_equal. unfold forward_output. apply updated_ext. intros i _ Hi.
    unfold neuron_value, weighted_sum. do 2 f_equal.
    apply big_sum_ext. intros j Hj.
    destruct (Hswap i j Hi Hj) as [-> ->]. lia.
Qed.

(** ** The vector branches against the scalar branches *)

Example AddToAll_vector_run :
  AddToAll_vector I16 4 2 2 1 0 (mkMem [1; 2; 3; 32767] [5; 6; 7; 8] [10; 20; 30; 40; 50]) =
  AddToAll I16 4 1 0 (mkMem [1; 2; 3; 32767] [5; 6; 7; 8] [10; 20; 30; 40; 50]).
Proof. reflexivity. Qed.

Example SubtractAndAddToAll_vector_run :
  SubtractAndAddToAll_vector I16 4 2 2 1 0 0 1
    (mkMem [1; 2; 3; 32767] [5; 6; 7; 8] [10; 20; 30; 40; 50]) =
  SubtractAndAddToAll I16 4 1 0 0 1
    (mkMem [1; 2; 3; 32767] [5; 6; 7; 8] [10; 20; 30; 40; 50]).
Proof. reflexivity. Qed.

Example AddToAll_vector_overrun :
  AddToAll_vector I16 3 2 2 0 0 (mkMem [1; 2; 3] [5; 6; 7] [10; 20; 30; 40]) =
  Fault (OutOfBounds InputA 3).
Proof. reflexivity. Qed.

(** A stepped loop whose every iteration completes and re-establishes the
    invariant [P] completes, with [P] at the index that ends it. *)
Lemma for_step_from_invariant {St} (P : nat → St → Prop) body
    (fuel start step n : nat) (s : St) :
  (0 < step)%nat → (n - start ≤ fuel)%nat →
  P start s →
  (∀ j t, (start ≤ j < n)%nat → P j t →
     ∃ t', body j t = Ok t' ∧ P (j + step)%nat t') →
  ∃ s' j', for_step_from fuel start step n body s = Ok s' ∧ (n ≤ j')%nat ∧ P j' s'.
Proof.
  intros Hstep. revert start s.
  induction fuel as [|fuel IH]; intros start s Hfuel HP Hbody; simpl.
  - exists s, start. repeat split; [lia|done].
  - destruct (decide (start < n)%nat) as [Hlt|Hge].
    + destruct (Hbody start s) as (s1 & -> & HP1); [lia|done|].
      rewrite bind_Ok. apply IH; [lia|done|].
      intros j t Hj. apply Hbody. lia.
    + exists s, start. repeat split; [lia|done].
Qed.

(** A stepped loop whose iterations complete up to index [k], where the
    body faults, faults in the same way. *)
Lemma for_step_from_fault {St} (P : nat → St → Prop) body
    (fuel start step n k : nat) f (s : St) :
  (0 < step)%nat → (n - start ≤ fuel)%nat → (k < n)%nat →
  P start s →
  (∀ j t, P j t → (j ≤ k)%nat ∧ ((j < k)%nat → (j + step ≤ k)%nat)) →
  (∀ j t, (j < k)%nat → P j t → ∃ t', body j t = Ok t' ∧ P (j + step)%nat t') →
  (∀ t, P k t → body k t = Fault f) →
  for_step_from fuel start step n body s = Fault f.
Proof.
  intros Hstep. revert start s.
  induction fuel as [|fuel IH]; intros start s Hfuel Hk HP Hidx Hbody Hfault.
  - destruct (Hidx start s HP). lia.
  - simpl. destruct (Hidx start s HP) as [Hle Hnext].
    rewrite decide_True by lia.
    destruct (decide (start = k)) as [->|Hne].
    + by rewrite Hfault.
    + destruct (Hbody start s) as (s1 & -> & HP1); [lia|done|].
      rewrite bind_Ok. apply IH; try done. lia.
Qed.

Lemma vec_From_in_bounds w a (l : list Z) o :
  (o + w ≤ length l)%nat → vec_From w a l o = Ok (slice l o w).
Proof. intros. unfold vec_From. by rewrite decide_True. Qed.

Lemma length_slice (l : list Z) o n : in_bounds l o n → length (slice l o n) = n.
Proof.
  unfold in_bounds, slice. intros. rewrite length_take, length_drop. lia.
Qed.

(** An element not yet reached by the loop has its initial value. *)
Lemma lookup_total_updated_ge g k (l : list Z) j :
  (k ≤ j)%nat → updated g 0 k l !!! j = l !!! j.
Proof.
  intros Hj. rewrite !list_lookup_total_alt, lookup_updated.
  destruct (l !! j); simpl; [|done]. by rewrite decide_False by lia.
Qed.

(** Storing the chunk of new values at index [j] advances the loop over
    the array by one chunk. *)
Lemma vec_Store_updated a g (l c : list Z) j step :
  (j + step ≤ length l)%nat → length c = step →
  (∀ i, (i < step)%nat → c !! i = Some (g (j + i)%nat (l !!! (j + i)%nat))) →
  vec_Store a c (updated g 0 j l) j = Ok (updated g 0 (j + step) l).
Proof.
  intros Hj Hc Hchunk. unfold vec_Store.
  rewrite decide_True by (rewrite length_updated; lia).
  f_equal. apply list_eq. intros k.
  assert (length (take j (updated g 0 j l)) = j) as Htake
    by (rewrite length_take, length_updated; lia).
  destruct (decide (k < j)%nat) as [Hlt|Hge].
  - rewrite lookup_app_l, lookup_take_lt by lia.
    rewrite !lookup_updated. destruct (l !! k); simpl; [|done].
    by rewrite !decide_True by lia.
  - rewrite lookup_app_r, Htake by lia.
    destruct (decide (k < j + step)%nat) as [Hin|Hout].
    + rewrite lookup_app_l, Hchunk by lia.
      rewrite lookup_updated.
      rewrite (list_lookup_lookup_total_lt l k) by lia. simpl.
      rewrite decide_True by lia.
      replace (j + (k - j))%nat with k by lia. by rewrite Nat.sub_0_r.
    + rewrite lookup_app_r, lookup_drop by lia.
      replace (j + length c + (k - j - length c))%nat with k by lia.
      rewrite !lookup_updated. destruct (l !! k); simpl; [|done].
      by rewrite !decide_False by lia.
Qed.

Lemma imap_add_slice T D o (l : list Z) :
  imap (λ j a, convert T (a + D !!! (o + j)%nat)) l = add_slice T D o l.
Proof.
  apply list_eq. intros i. by rewrite list_lookup_imap, lookup_add_slice.
Qed.

Lemma imap_sub_slice T D o (l : list Z) :
  imap (λ j a, convert T (a - D !!! (o + j)%nat)) l = sub_slice T D o l.
Proof.
  apply list_eq. intros i. by rewrite list_lookup_imap, lookup_sub_slice.
Qed.

Lemma imap_sub_add_slice T D oS oA (l : list Z) :
  imap (λ j a, convert T (a - D !!! (oS + j)%nat + D !!! (oA + j)%nat)) l =
  sub_add_slice T D oS oA l.
Proof.
  apply list_eq. intros i. by rewrite list_lookup_imap, lookup_sub_add_slice.
Qed.

Lemma lookup_slice_updated g (l : list Z) j step i :
  (j + step ≤ length l)%nat → (i < step)%nat →
  slice (updated g 0 j l) j step !! i = Some (l !!! (j + i)%nat).
Proof.
  intros Hj Hi. rewrite lookup_slice; [|unfold in_bounds; rewrite length_updated; lia|done].
  by rewrite lookup_total_updated_ge by lia.
Qed.

Lemma length_slice_updated g (l : list Z) j step :
  (j + step ≤ length l)%nat → length (slice (updated g 0 j l) j step) = step.
Proof.
  intros. apply length_slice. unfold in_bounds. rewrite length_updated. lia.
Qed.

Section VectorUpdateKernels.
Variable T : int_type.
Variables step k : nat.
Hypothesis step_pos : (0 < step)%nat.

(** One chunked loop over one accumulator of [k] chunks, ending in the
    array [imap g l] when every iteration stores the chunk of the values
    [g i (l[i])]. *)
Lemma chunked_loop (get : Mem → list Z) (set : Mem → list Z → Mem)
    (body : nat → Mem → result Mem) (g : nat → Z → Z) (m : Mem) :
  length (get m) = (k * step)%nat →
  set m (get m) = m →
  (∀ j, (j + step ≤ k * step)%nat →
     body j (set m (updated g 0 j (get m))) =
     Ok (set m (updated g 0 (j + step) (get m)))) →
  for_step step (k * step) body m = Ok (set m (imap g (get m))).
Proof using step_pos.
  intros Hlen Hset Hbody. unfold for_step. rewrite <- Hset at 1.
  edestruct (for_step_from_invariant
    (λ j t, (∃ c, j = (c * step)%nat ∧ (c ≤ k)%nat) ∧
            t = set m (updated g 0 j (get m))))
    as (s' & j' & -> & Hj' & (c & -> & Hc) & ->); [done|lia| | |].
  - split; [exists 0%nat; lia|]. by rewrite updated_0.
  - intros j t Hj [(c & -> & Hc) ->].
    assert (c < k)%nat as Hlt by nia.
    pose proof (Nat.mul_le_mono_r (S c) k step Hlt) as Hmul. simpl in Hmul.
    eexists. split.
    + apply Hbody. lia.
    + split; [|done]. exists (S c). simpl. lia.
  - f_equal. replace (c * step)%nat with (length (get m)).
    + by rewrite updated_all.
    + rewrite Hlen. pose proof (Nat.mul_le_mono_r c k step Hc). lia.
Qed.

(** The chunks the three vector loops store. *)
Lemma store_Add_chunk a D o (l : list Z) j :
  (j + step ≤ length l)%nat → (o + j + step ≤ length D)%nat →
  vec_Store a (vec_Add T (slice (updated (λ i x, convert T (x + D !!! (o + i)%nat))
                                   0 j l) j step)
                         (slice D (o + j) step))
    (updated (λ i x, convert T (x + D !!! (o + i)%nat)) 0 j l) j =
  Ok (updated (λ i x, convert T (x + D !!! (o + i)%nat)) 0 (j + step) l).
Proof using step_pos.
  intros Hj Ho. apply vec_Store_updated; [done| |].
  - unfold vec_Add. rewrite length_zip_with, length_slice_updated by done.
    rewrite length_slice by (unfold in_bounds; lia). lia.
  - intros i Hi. unfold vec_Add.
    rewrite lookup_zip_with, lookup_slice_updated by done.
    rewrite lookup_slice by (done || unfold in_bounds; lia). simpl.
    by rewrite <- Nat.add_assoc.
Qed.

Lemma store_Subtract_chunk a D o (l : list Z) j :
  (j + step ≤ length l)%nat → (o + j + step ≤ length D)%nat →
  vec_Store a (vec_Subtract T
                 (slice (updated (λ i x, convert T (x - D !!! (o + i)%nat))
                           0 j l) j step)
                 (slice D (o + j) step))
    (updated (λ i x, convert T (x - D !!! (o + i)%nat)) 0 j l) j =
  Ok (updated (λ i x, convert T (x - D !!! (o + i)%nat)) 0 (j + step) l).
Proof using step_pos.
  intros Hj Ho. apply vec_Store_updated; [done| |].
  - unfold vec_Subtract. rewrite length_zip_with, length_slice_updated by done.
    rewrite length_slice by (unfold in_bounds; lia). lia.
  - intros i Hi. unfold vec_Subtract.
    rewrite lookup_zip_with, lookup_slice_updated by done.
    rewrite lookup_slice by (done || unfold in_bounds; lia). simpl.
    by rewrite <- Nat.add_assoc.
Qed.

Lemma store_Subtract_Add_chunk a D oS oA (l : list Z) j :
  (j + step ≤ length l)%nat →
  (oS + j + step ≤ length D)%nat → (oA + j + step ≤ length D)%nat →
  vec_Store a
    (vec_Add T
       (vec_Subtract T
          (slice (updated (λ i x, convert T (x - D !!! (oS + i)%nat
                                              + D !!! (oA + i)%nat)) 0 j l) j step)
          (slice D (oS + j) step))
       (slice D (oA + j) step))
    (updated (λ i x, convert T (x - D !!! (oS + i)%nat + D !!! (oA + i)%nat))
       0 j l) j =
  Ok (updated (λ i x, convert T (x - D !!! (oS + i)%nat + D !!! (oA + i)%nat))
        0 (j + step) l).
Proof using step_pos.
  intros Hj HoS HoA. apply vec_Store_updated; [done| |].
  - unfold vec_Add, vec_Subtract.
    rewrite !length_zip_with, length_slice_updated by done.
    rewrite !length_slice by (unfold in_bounds; lia). lia.
  - intros i Hi. unfold vec_Add, vec_Subtract.
    rewrite !lookup_zip_with, lookup_slice_updated by done.
    rewrite !lookup_slice by (done || unfold in_bounds; lia). simpl.
    rewrite convert_absorb by lia. by rewrite <- !Nat.add_assoc.
Qed.

(** One iteration of a vector loop on an in-bounds chunk. *)
Local Ltac chunk :=
  intros; unfold sized, in_bounds in *; simpl;
  rewrite ?length_imap in *;
  repeat first
    [ rewrite bind_Ok
    | rewrite vec_From_in_bounds by (rewrite ?length_updated; lia) ];
  simpl;
  first [ rewrite store_Add_chunk by lia
        | rewrite store_Subtract_chunk by lia
        | rewrite store_Subtract_Add_chunk by lia ];
  reflexivity.

Lemma AddToAll_vector_spec oA oB A B D :
  sized (k * step) A → sized (k * step) B →
  in_bounds D oA (k * step) → in_bounds D oB (k * step) →
  AddToAll_vector T (k * step) step step oA oB (mkMem A B D) =
  Ok (mkMem (add_slice T D oA A) (add_slice T D oB B) D).
Proof using step_pos.
  intros HA HB HoA HoB. unfold AddToAll_vector.
  rewrite (chunked_loop inputA set_inputA _
             (λ i x, convert T (x + D !!! (oA + i)%nat)) (mkMem A B D));
    [|done|done|by chunk].
  rewrite bind_Ok. unfold set_inputA. simpl.
  rewrite (chunked_loop inputB set_inputB _
             (λ i x, convert T (x + D !!! (oB + i)%nat))
             (mkMem (imap (λ i x, convert T (x + D !!! (oA + i)%nat)) A) B D));
    [|done|done|by chunk].
  simpl. by rewrite !imap_add_slice.
Qed.

Lemma SubtractFromAll_vector_spec oA oB A B D :
  sized (k * step) A → sized (k * step) B →
  in_bounds D oA (k * step) → in_bounds D oB (k * step) →
  SubtractFromAll_vector T (k * step) step step oA oB (mkMem A B D) =
  Ok (mkMem (sub_slice T D oA A) (sub_slice T D oB B) D).
Proof using step_pos.
  intros HA HB HoA HoB. unfold SubtractFromAll_vector.
  rewrite (chunked_loop inputA set_inputA _
             (λ i x, convert T (x - D !!! (oA + i)%nat)) (mkMem A B D));
    [|done|done|by chunk].
  rewrite bind_Ok. unfold set_inputA. simpl.
  rewrite (chunked_loop inputB set_inputB _
             (λ i x, convert T (x - D !!! (oB + i)%nat))
             (mkMem (imap (λ i x, convert T (x - D !!! (oA + i)%nat)) A) B D));
    [|done|done|by chunk].
  simpl. by rewrite !imap_sub_slice.
Qed.

Lemma SubtractAndAddToAll_vector_spec oAS oAA oBS oBA A B D :
  sized (k * step) A → sized (k * step) B →
  in_bounds D oAS (k * step) → in_bounds D oAA (k * step) →
  in_bounds D oBS (k * step) → in_bounds D oBA (k * step) →
  SubtractAndAddToAll_vector T (k * step) step step oAS oAA oBS oBA (mkMem A B D) =
  Ok (mkMem (sub_add_slice T D oAS oAA A) (sub_add_slice T D oBS oBA B) D).
Proof using step_pos.
  intros HA HB HoAS HoAA HoBS HoBA. unfold SubtractAndAddToAll_vector.
  rewrite (chunked_loop inputA set_inputA _
             (λ i x, convert T (x - D !!! (oAS + i)%nat + D !!! (oAA + i)%nat))
             (mkMem A B D));
    [|done|done|by chunk].
  rewrite bind_Ok. unfold set_inputA. simpl.
  rewrite (chunked_loop inputB set_inputB _
             (λ i x, convert T (x - D !!! (oBS + i)%nat + D !!! (oBA + i)%nat))
             (mkMem (imap (λ i x, convert T (x - D !!! (oAS + i)%nat
                                             + D !!! (oAA + i)%nat)) A) B D));
    [|done|done|by chunk].
  simpl. by rewrite !imap_sub_add_slice.
Qed.

(** A chunked loop over an array that is not a whole number of chunks
    long runs up to the last, partial chunk and faults there. *)
Lemma chunked_loop_overrun (get : Mem → list Z) (set : Mem → list Z → Mem)
    (body : nat → Mem → result Mem) (g : nat → Z → Z) (m : Mem) a n :
  length (get m) = n → Nat.modulo n step ≠ 0%nat →
  set m (get m) = m →
  (∀ j, (j + step ≤ n)%nat →
     body j (set m (updated g 0 j (get m))) =
     Ok (set m (updated g 0 (j + step) (get m)))) →
  (∀ j l, (j < n < j + step)%nat → length l = n →
     body j (set m l) = Fault (OutOfBounds a n)) →
  for_step step n body m = Fault (OutOfBounds a n).
Proof using step_pos.
  intros Hlen Hmod Hset Hbody Hfault. unfold for_step. rewrite <- Hset at 1.
  pose proof (Nat.div_mod_eq n step) as Hdiv.
  pose proof (Nat.mod_upper_bound n step) as Hub.
  apply (for_step_from_fault
    (λ j t, (∃ c, j = (c * step)%nat ∧ (c ≤ Nat.div n step)%nat) ∧
            t = set m (updated g 0 j (get m)))
    _ n 0 step n (Nat.div n step * step)); try lia.
  - split; [exists 0%nat; lia|]. by rewrite updated_0.
  - intros j t [(c & -> & Hc) ->].
    pose proof (Nat.mul_le_mono_r c _ step Hc). split; [lia|]. intros Hlt.
    assert (c < Nat.div n step)%nat as Hc' by nia.
    pose proof (Nat.mul_le_mono_r (S c) _ step Hc'). simpl in *. lia.
  - intros j t Hj [(c & -> & Hc) ->].
    assert (c < Nat.div n step)%nat as Hc' by nia.
    pose proof (Nat.mul_le_mono_r (S c) _ step Hc') as Hmul. simpl in Hmul.
    eexists. split; [apply Hbody; lia|].
    split; [|done]. exists (S c). simpl. lia.
  - intros t [_ ->]. apply Hfault; [lia|]. by rewrite length_updated.
Qed.

(** The load of a partial chunk at the end of an accumulator. *)
Local Ltac partial_chunk :=
  intros; simpl; unfold vec_From;
  match goal with
  | |- context [decide ?P] => rewrite (decide_False (P := P)) by lia
  end;
  simpl; do 2 f_equal; lia.

Lemma AddToAll_vector_partial_chunk n oA oB A B D :
  sized n A → Nat.modulo n step ≠ 0%nat → in_bounds D oA n →
  AddToAll_vector T n step step oA oB (mkMem A B D) =
  Fault (OutOfBounds InputA n).
Proof using step_pos.
  intros HA Hmod HoA. unfold AddToAll_vector.
  rewrite (chunked_loop_overrun inputA set_inputA _
             (λ i x, convert T (x + D !!! (oA + i)%nat)) (mkMem A B D) InputA n);
    [done|done|done|done|by chunk|by partial_chunk].
Qed.

Lemma SubtractFromAll_vector_partial_chunk n oA oB A B D :
  sized n A → Nat.modulo n step ≠ 0%nat → in_bounds D oA n →
  SubtractFromAll_vector T n step step oA oB (mkMem A B D) =
  Fault (OutOfBounds InputA n).
Proof using step_pos.
  intros HA Hmod HoA. unfold SubtractFromAll_vector.
  rewrite (chunked_loop_overrun inputA set_inputA _
             (λ i x, convert T (x - D !!! (oA + i)%nat)) (mkMem A B D) InputA n);
    [done|done|done|done|by chunk|by partial_chunk].
Qed.

Lemma SubtractAndAddToAll_vector_partial_chunk n oAS oAA oBS oBA A B D :
  sized n A → Nat.modulo n step ≠ 0%nat →
  in_bounds D oAS n → in_bounds D oAA n →
  SubtractAndAddToAll_vector T n step step oAS oAA oBS oBA (mkMem A B D) =
  Fault (OutOfBounds InputA n).
Proof using step_pos.
  intros HA Hmod HoAS HoAA. unfold SubtractAndAddToAll_vector.
  rewrite (chunked_loop_overrun inputA set_inputA _
             (λ i x, convert T (x - D !!! (oAS + i)%nat + D !!! (oAA + i)%nat))
             (mkMem A B D) InputA n);
    [done|done|done|done|by chunk|by partial_chunk].
Qed.

End VectorUpdateKernels.

(** X11. When a register holds as many lanes as the loops step over
    ([step], which is [32] in the [__AVX512BW__] and [16] in the
    [__AVX2__] branches), the accumulators are a whole number [k] of chunks
    long and the offsets are in bounds and multiples of the chunk length,
    the vector branch of each update kernel completes in the same final
    state as the scalar branch. *)
Theorem vector_branches_agree T step k oA oB oAS oAA oBS oBA m :
  (0 < step)%nat →
  sized (k * step) (inputA m) → sized (k * step) (inputB m) →
  in_bounds (delta m) oA (k * step) → in_bounds (delta m) oB (k * step) →
  in_bounds (delta m) oAS (k * step) → in_bounds (delta m) oAA (k * step) →
  in_bounds (delta m) oBS (k * step) → in_bounds (delta m) oBA (k * step) →
  Nat.divide step oA → Nat.divide step oB →
  Nat.divide step oAS → Nat.divide step oAA →
  Nat.divide step oBS → Nat.divide step oBA →
  (∃ m', AddToAll_vector T (k * step) step step oA oB m = Ok m' ∧
         AddToAll T (k * step) oA oB m = Ok m') ∧
  (∃ m', SubtractFromAll_vector T (k * step) step step oA oB m = Ok m' ∧
         SubtractFromAll T (k * step) oA oB m = Ok m') ∧
  (∃ m', SubtractAndAddToAll_vector T (k * step) step step oAS oAA oBS oBA m
           = Ok m' ∧
         SubtractAndAddToAll T (k * step) oAS oAA oBS oBA m = Ok m').
Proof.
  destruct m as [A B D]. simpl. intros Hstep HA HB ?????? _ _ _ _ _ _.
  split; [|split]; eexists; split.
  - by apply AddToAll_vector_spec.
  - by apply AddToAll_spec.
  - by apply SubtractFromAll_vector_spec.
  - by apply SubtractFromAll_spec.
  - by apply SubtractAndAddToAll_vector_spec.
  - by apply SubtractAndAddToAll_spec.
Qed.

(** X12. When the accumulator length is not a multiple of the chunk
    length, the vector branch of each update kernel, given in-bounds
    offsets, runs up to the last, partial chunk of [inputA] and loads it
    past the end of the array: the first index outside is [InputSize]. *)
Theorem vector_branches_need_whole_chunks T step n oA oB oAS oAA oBS oBA m :
  (0 < step)%nat → Nat.modulo n step ≠ 0%nat →
  sized n (inputA m) →
  in_bounds (delta m) oA n →
  in_bounds (delta m) oAS n → in_bounds (delta m) oAA n →
  Nat.divide step oA → Nat.divide step oAS → Nat.divide step oAA →
  AddToAll_vector T n step step oA oB m = Fault (OutOfBounds InputA n) ∧
  SubtractFromAll_vector T n step step oA oB m = Fault (OutOfBounds InputA n) ∧
  SubtractAndAddToAll_vector T n step step oAS oAA oBS oBA m =
    Fault (OutOfBounds InputA n).
Proof.
  destruct m as [A B D]. simpl. intros Hstep Hmod HA ??? _ _ _.
  split; [|split].
  - by apply AddToAll_vector_partial_chunk.
  - by apply SubtractFromAll_vector_partial_chunk.
  - by apply SubtractAndAddToAll_vector_partial_chunk.
Qed.

(** ** The further properties on concrete arrays *)

Lemma SubtractFromAll_AddToAll_roundtrip_witness :
  (SubtractFromAll I16 2 1 0 (mkMem [32767; -5] [3; -32768] [-10; 20; 30])
     ≫= AddToAll I16 2 1 0) =
  Ok (mkMem [32767; -5] [3; -32768] [-10; 20; 30]).
Proof.
  apply (SubtractFromAll_AddToAll_roundtrip I16 2 1 0
           (mkMem [32767; -5] [3; -32768] [-10; 20; 30]));
    first [ reflexivity | apply typed_I16_example
          | unfold in_bounds; simpl; lia ].
Defined.

Lemma AddToAll_commutes_witness :
  ∃ m', (AddToAll I16 2 0 1 (mkMem [32767; -5] [3; 4] [10; 20; 30])
           ≫= AddToAll I16 2 1 0) = Ok m' ∧
        (AddToAll I16 2 1 0 (mkMem [32767; -5] [3; 4] [10; 20; 30])
           ≫= AddToAll I16 2 0 1) = Ok m'.
Proof.
  apply (AddToAll_commutes I16 2 0 1 1 0 (mkMem [32767; -5] [3; 4] [10; 20; 30]));
    reflexivity || (unfold in_bounds; simpl; lia).
Defined.

Lemma AddToAll_SubtractFromAll_commute_witness :
  ∃ m', (AddToAll I16 2 0 1 (mkMem [32767; -5] [3; 4] [10; 20; 30])
           ≫= SubtractFromAll I16 2 1 0) = Ok m' ∧
        (SubtractFromAll I16 2 1 0 (mkMem [32767; -5] [3; 4] [10; 20; 30])
           ≫= AddToAll I16 2 0 1) = Ok m'.
Proof.
  apply (AddToAll_SubtractFromAll_commute I16 2 0 1 1 0
           (mkMem [32767; -5] [3; 4] [10; 20; 30]));
    reflexivity || (unfold in_bounds; simpl; lia).
Defined.

Lemma SubtractAndAddToAll_undo_witness :
  (SubtractAndAddToAll I16 2 0 1 1 0 (mkMem [32767; -5] [3; -32768] [-10; 20; 30])
     ≫= SubtractAndAddToAll I16 2 1 0 0 1) =
  Ok (mkMem [32767; -5] [3; -32768] [-10; 20; 30]).
Proof.
  apply (SubtractAndAddToAll_undo I16 2 0 1 1 0
           (mkMem [32767; -5] [3; -32768] [-10; 20; 30]));
    first [ reflexivity | apply typed_I16_example
          | unfold in_bounds; simpl; lia ].
Defined.

Lemma AddToAll_twice_is_once_witness :
  ∃ m2 m',
    (AddToAll I16 2 0 2 (mkMem [5; -6] [7; 8] [30000; 1; 30000; 2])
       ≫= AddToAll I16 2 2 0) = Ok m2 ∧
    AddToAll I16 2 1 1 (mkMem [5; -6] [7; 8] [7; -5536; 3]) = Ok m' ∧
    inputA m2 = inputA m' ∧ inputB m2 = inputB m'.
Proof.
  apply (AddToAll_twice_is_once I16 2 0 2 2 0 1 1 [5; -6] [7; 8]
           [30000; 1; 30000; 2] [7; -5536; 3]);
    reflexivity || (unfold in_bounds; simpl; lia).
Defined.

Lemma update_kernels_complete_iff_witness :
  ¬ (∃ m', AddToAll I16 2 0 2 (mkMem [1; 2] [3; 4] [10; 20; 30]) = Ok m') ∧
  (∃ m', SubtractAndAddToAll I16 2 0 1 1 0
           (mkMem [1; 2] [3; 4] [10; 20; 30]) = Ok m').
Proof.
  destruct (update_kernels_complete_iff I16 2 0 2 0 1 1 0
              (mkMem [1; 2] [3; 4] [10; 20; 30]))
    as (Hadd & _ & Hfused); [lia | reflexivity | reflexivity |].
  split.
  - intros Hrun. apply Hadd in Hrun. unfold in_bounds in Hrun. simpl in Hrun. lia.
  - apply Hfused. unfold in_bounds. simpl. lia.
Defined.

Lemma ActivateFlattenAndForward_completes_iff_witness :
  (∃ output', ActivateFlattenAndForward I16 2 I32 1 id
                [1; 2] [3; 4] [1; 1; 1; 1] [5] [0] 0 = Ok output') ∧
  ¬ (∃ output', ActivateFlattenAndForward I16 2 I32 1 id
                  [1; 2] [3; 4] [1; 1; 1; 1] [5; 6] [0] 1 = Ok output').
Proof.
  split.
  - apply (ActivateFlattenAndForward_completes_iff I16 I32 2 1 id
             [1; 2] [3; 4] [1; 1; 1; 1] [5] [0] 0);
      try reflexivity; try lia.
    unfold in_bounds. simpl. lia.
  - intros Hrun.
    apply (ActivateFlattenAndForward_completes_iff I16 I32 2 1 id
             [1; 2] [3; 4] [1; 1; 1; 1] [5; 6] [0] 1) in Hrun;
      try reflexivity; try lia.
    unfold in_bounds in Hrun. simpl in Hrun. lia.
Defined.

Lemma ActivateFlattenAndForward_frame_witness :
  ∃ output' output2',
    ActivateFlattenAndForward I16 2 I32 1 id
      [1; 2] [3; 4] [1; 1; 1; 1] [0; 5] [7; 8; 9] 1 = Ok output' ∧
    ActivateFlattenAndForward I16 2 I32 1 id
      [1; 2] [3; 4] [1; 1; 1; 1] [0; 5] [-1; -2; -3] 1 = Ok output2' ∧
    output' !! 0%nat = Some 7 ∧ output' !! 2%nat = Some 9 ∧
    output' !! 1%nat = output2' !! 1%nat.
Proof.
  destruct (ActivateFlattenAndForward_frame I16 I32 2 1 id
              [1; 2] [3; 4] [1; 1; 1; 1] [0; 5] [7; 8; 9] [-1; -2; -3] 1)
    as (out1 & out2 & Hrun1 & Hrun2 & _ & Hout & Hin);
    [reflexivity | reflexivity | reflexivity | unfold in_bounds; simpl; lia..|].
  exists out1, out2. repeat split; try done.
  - apply (Hout 0%nat). lia.
  - apply (Hout 2%nat). lia.
  - apply (Hin 1%nat). lia.
Defined.

Lemma typed_I16_forward :
  typed I16 [1; -2] ∧ typed I16 [3; 4] ∧ typed I16 [100; 200; -300; 400].
Proof. repeat split; repeat constructor; by vm_compute. Qed.

Lemma relu_in_range x : in_range I16 x → in_range I16 (Z.max 0 x).
Proof. unfold in_range. simpl. lia. Qed.

Lemma ActivateFlattenAndForward_exact_witness :
  ∃ output',
    ActivateFlattenAndForward I16 2 I32 1 (Z.max 0)
      [1; -2] [3; 4] [100; 200; -300; 400] [5] [0] 0 = Ok output' ∧
    output' !! 0%nat = Some (1 * 100 + 0 * 200 + (3 * -300 + 4 * 400) + 5).
Proof.
  destruct (ActivateFlattenAndForward_exact I16 I32 2 1 (Z.max 0)
              [1; -2] [3; 4] [100; 200; -300; 400] [5] [0] 0)
    as (output' & Hrun & Hi);
    [ simpl; lia | reflexivity | reflexivity | reflexivity
    | apply typed_I16_forward | apply typed_I16_forward | apply typed_I16_forward
    | apply relu_in_range
    | unfold in_bounds; simpl; lia | unfold in_bounds; simpl; lia | | ].
  - intros i Hi. assert (i = 0%nat) as -> by lia. by vm_compute.
  - exists output'. split; [exact Hrun|]. apply (Hi 0%nat). lia.
Defined.

Lemma ActivateFlattenAndForward_swap_witness :
  ∃ output',
    ActivateFlattenAndForward I16 2 I32 1 id
      [1; 2] [3; 4] [10; 20; 30; 40] [5] [0] 0 = Ok output' ∧
    ActivateFlattenAndForward I16 2 I32 1 id
      [3; 4] [1; 2] [30; 40; 10; 20] [5] [0] 0 = Ok output'.
Proof.
  apply (ActivateFlattenAndForward_swap I16 I32 2 1 id
           [1; 2] [3; 4] [10; 20; 30; 40] [30; 40; 10; 20] [5] [0] 0);
    try reflexivity; try (unfold in_bounds; simpl; lia).
  intros i j Hi Hj. assert (i = 0%nat) as -> by lia.
  destruct j as [|[|j]]; [by split | by split | lia].
Defined.

Lemma vector_branches_agree_witness :
  ∃ m', AddToAll_vector I16 32 16 16 0 16
          (mkMem (replicate 32 32767) (replicate 32 (-7)) (replicate 48 3))
          = Ok m' ∧
        AddToAll I16 32 0 16
          (mkMem (replicate 32 32767) (replicate 32 (-7)) (replicate 48 3))
          = Ok m'.
Proof.
  destruct (vector_branches_agree I16 16 2 0 16 0 16 16 0
              (mkMem (replicate 32 32767) (replicate 32 (-7)) (replicate 48 3)))
    as [Hadd _];
    [ lia | reflexivity | reflexivity
    | unfold in_bounds; simpl; lia | unfold in_bounds; simpl; lia
    | unfold in_bounds; simpl; lia | unfold in_bounds; simpl; lia
    | unfold in_bounds; simpl; lia | unfold in_bounds; simpl; lia
    | by exists 0%nat | by exists 1%nat | by exists 0%nat
    | by exists 1%nat | by exists 1%nat | by exists 0%nat | ].
  exact Hadd.
Defined.

Lemma vector_branches_need_whole_chunks_witness :
  AddToAll_vector I16 24 16 16 0 16
    (mkMem (replicate 24 1) (replicate 24 2) (replicate 48 3)) =
  Fault (OutOfBounds InputA 24).
Proof.
  destruct (vector_branches_need_whole_chunks I16 16 24 0 16 0 16 16 0
              (mkMem (replicate 24 1) (replicate 24 2) (replicate 48 3)))
    as [Hadd _];
    [ lia | by vm_compute | reflexivity
    | unfold in_bounds; simpl; lia | unfold in_bounds; simpl; lia
    | unfold in_bounds; simpl; lia
    | by exists 0%nat | by exists 0%nat | by exists 1%nat | ].
  exact Hadd.
Defined.

(** ** The vector branch of the forward pass against the scalar branch *)

Example ActivateFlattenAndForward_vector_run :
  ActivateFlattenAndForward_vector I16 4 2 2 I32 1 2 (map (Z.max 0))
    [1; -2; 3; 4] [5; 6; -7; 8] (seqZ 1 16) [5; 7] [0; 0] 0 =
  ActivateFlattenAndForward I16 4 I32 2 (Z.max 0)
    [1; -2; 3; 4] [5; 6; -7; 8] (seqZ 1 16) [5; 7] [0; 0] 0.
Proof. reflexivity. Qed.

Lemma big_sum_shift n (f : nat → Z) :
  big_sum (S n) f = f 0%nat + big_sum n (λ i, f (S i)).
Proof.
  induction n as [|n IH]; [simpl; lia|].
  change (big_sum (S (S n)) f) with (big_sum (S n) f + f (S n)).
  rewrite IH. simpl. lia.
Qed.

Lemma big_sum_split j m (f : nat → Z) :
  big_sum (j + m) f = big_sum j f + big_sum m (λ i, f (j + i)%nat).
Proof.
  induction m as [|m IH]; simpl.
  - rewrite Nat.add_0_r. lia.
  - replace (j + S m)%nat with (S (j + m)) by lia. simpl. rewrite IH. lia.
Qed.

Lemma big_sum_plus n (f g : nat → Z) :
  big_sum n (λ i, f i + g i) = big_sum n f + big_sum n g.
Proof. induction n as [|n IH]; simpl; lia. Qed.

(** The sum of the lane products of two registers. *)
Lemma sum_products (x y : list Z) :
  length x = length y →
  foldr Z.add 0 (zip_with Z.mul x y) = big_sum (length x) (λ i, x !!! i * y !!! i).
Proof.
  revert y. induction x as [|a x IH]; intros [|b y] Hlen; try done.
  simpl in Hlen. injection Hlen as Hlen.
  cbn [zip_with foldr length]. rewrite big_sum_shift, IH by done. done.
Qed.

(** Adding adjacent lanes in pairs keeps the sum of the lanes, in the
    arithmetic of [OT]. *)
Lemma sum_add_adjacent OT h (l : list Z) :
  length l = (2 * h)%nat →
  length (add_adjacent OT l) = h ∧
  convert OT (foldr Z.add 0 (add_adjacent OT l)) = convert OT (foldr Z.add 0 l).
Proof.
  revert l. induction h as [|h IH]; intros l Hl.
  - destruct l; [done|simpl in Hl; lia].
  - destruct l as [|a [|b l]]; simpl in Hl; try lia.
    destruct (IH l) as [Hlen Hsum]; [lia|].
    cbn [add_adjacent foldr length]. split; [by rewrite Hlen|].
    rewrite convert_absorb by lia.
    rewrite <- convert_absorb_r with (U := OT), Hsum, convert_absorb_r by lia.
    f_equal. lia.
Qed.

(** Adding two registers lane by lane adds their sums. *)
Lemma sum_vec_Add OT (x y : list Z) :
  length x = length y →
  length (vec_Add OT x y) = length x ∧
  convert OT (foldr Z.add 0 (vec_Add OT x y)) =
  convert OT (foldr Z.add 0 x + foldr Z.add 0 y).
Proof.
  revert y. induction x as [|a x IH]; intros [|b y] Hlen; try done.
  simpl in Hlen. injection Hlen as Hlen.
  destruct (IH y Hlen) as [Hl Hsum]. unfold vec_Add in *.
  cbn [zip_with foldr length]. split; [by rewrite Hl|].
  rewrite convert_absorb by lia.
  rewrite <- convert_absorb_r with (U := OT), Hsum, convert_absorb_r by lia.
  f_equal. lia.
Qed.

(** Sums that agree in the arithmetic of [OT] still agree when added. *)
Lemma convert_add_congr OT a a' b b' :
  convert OT a = convert OT a' → convert OT b = convert OT b' →
  convert OT (a + b) = convert OT (a' + b').
Proof.
  intros Ha Hb.
  rewrite <- (convert_absorb OT OT a), <- (convert_absorb_r OT OT _ b) by lia.
  rewrite Ha, Hb. by rewrite convert_absorb, convert_absorb_r by lia.
Qed.

Lemma convert_big_sum OT n (f g : nat → Z) :
  (∀ j, (j < n)%nat → convert OT (f j) = convert OT (g j)) →
  convert OT (big_sum n f) = convert OT (big_sum n g).
Proof.
  induction n as [|n IH]; intros Hfg; simpl; [done|].
  apply convert_add_congr; [apply IH; intros; apply Hfg; lia|apply Hfg; lia].
Qed.

Lemma sum_replicate_0 n : foldr Z.add 0 (replicate n 0) = 0.
Proof. induction n as [|n IH]; simpl; [done|]. by rewrite IH. Qed.

(** When [OT] is no wider than the type the products are computed in, the
    weighted sum agrees, in the arithmetic of [OT], with the sum of the
    products over the integers. *)
Lemma convert_weighted_sum T OT n Activate A B W i b :
  bits OT <= bits (promote T) →
  convert OT (weighted_sum T n Activate A B W i + b) =
  convert OT (big_sum n (λ j,
    Activate (A !!! j) * W !!! (i * 2 * n + j)%nat +
    Activate (B !!! j) * W !!! (i * 2 * n + n + j)%nat) + b).
Proof.
  intros HOT. apply convert_add_congr; [|done].
  apply convert_big_sum. intros j _. unfold mul. rewrite common_diag.
  by rewrite convert_absorb, convert_absorb_r by done.
Qed.

Section VectorForwardPass.
Variables T OT : int_type.
Variables h k OutputSize : nat.
Variable Activate : Z → Z.
Variable Activate_vector : list Z → list Z.
Variables A B W bias : list Z.
Variable o : nat.

Hypothesis h_pos : (0 < h)%nat.
Hypothesis Activate_lanes : ∀ c, Activate_vector c = Activate <$> c.
Hypothesis sized_A : sized (k * (2 * h)) A.
Hypothesis sized_B : sized (k * (2 * h)) B.

(** The chunk of pair sums of one register of activated inputs and one
    register of weights. *)
Lemma products_chunk (l : list Z) j p :
  (j + 2 * h ≤ length l)%nat → (p + 2 * h ≤ length W)%nat →
  length (vec_MultiplyAndAddAdjacent OT (Activate_vector (slice l j (2 * h)))
            (slice W p (2 * h))) = h ∧
  convert OT (foldr Z.add 0
    (vec_MultiplyAndAddAdjacent OT (Activate_vector (slice l j (2 * h)))
       (slice W p (2 * h)))) =
  convert OT (big_sum (2 * h) (λ i,
    Activate (l !!! (j + i)%nat) * W !!! (p + i)%nat)).
Proof using Activate_lanes h_pos.
  intros Hj Hp. rewrite Activate_lanes. unfold vec_MultiplyAndAddAdjacent.
  assert (length (slice l j (2 * h)) = (2 * h)%nat) as Hl
    by (apply length_slice; unfold in_bounds; lia).
  assert (length (slice W p (2 * h)) = (2 * h)%nat) as HW
    by (apply length_slice; unfold in_bounds; lia).
  destruct (sum_add_adjacent OT h
              (zip_with Z.mul (Activate <$> slice l j (2 * h)) (slice W p (2 * h))))
    as [Hlen Hsum].
  { rewrite length_zip_with, length_fmap. lia. }
  split; [done|]. rewrite Hsum.
  rewrite sum_products by (rewrite length_fmap; lia).
  rewrite length_fmap, Hl. f_equal. apply big_sum_ext. intros i Hi.
  rewrite (list_lookup_total_fmap Activate (slice l j (2 * h)) i) by lia.
  unfold slice.
  by rewrite !lookup_total_take_lt, !lookup_total_drop by lia.
Qed.

(** The loop over [j] leaves in [zmm0] lanes whose sum is, in the
    arithmetic of [OT], the sum of the products of weight block [i]. *)
Lemma forward_steps_vector i :
  (S i * (k * (2 * h) * 2) ≤ length W)%nat →
  ∃ zmm0,
    for_step (2 * h) (k * (2 * h))
      (forward_step_vector (k * (2 * h)) (2 * h) OT Activate_vector A B W
         (i * (k * (2 * h) * 2))) (vec_Zero h) = Ok zmm0 ∧
    vec_Sum OT zmm0 =
    convert OT (big_sum (k * (2 * h)) (λ j,
      Activate (A !!! j) * W !!! (i * 2 * (k * (2 * h)) + j)%nat +
      Activate (B !!! j) * W !!! (i * 2 * (k * (2 * h)) + k * (2 * h) + j)%nat)).
Proof using Activate_lanes h_pos sized_A sized_B.
  intros HW. unfold sized in *. unfold for_step.
  set (n := (k * (2 * h))%nat) in *.
  set (term := λ j : nat,
         Activate (A !!! j) * W !!! (i * 2 * n + j)%nat +
         Activate (B !!! j) * W !!! (i * 2 * n + n + j)%nat).
  edestruct (for_step_from_invariant
    (λ j z, (∃ c, j = (c * (2 * h))%nat ∧ (c ≤ k)%nat) ∧ length z = h ∧
            convert OT (foldr Z.add 0 z) = convert OT (big_sum j term))
    (forward_step_vector n (2 * h) OT Activate_vector A B W (i * (n * 2)))
    n 0 (2 * h) n (vec_Zero h))
    as (zmm0 & j' & Hrun & Hj' & (c & -> & Hc) & Hlen & Hsum);
    [| |split; [|split]| |].
  - lia.
  - lia.
  - exists 0%nat. lia.
  - apply length_replicate.
  - unfold vec_Zero. by rewrite sum_replicate_0.
  - intros j z Hj [(c & -> & Hc) [Hlen Hsum]].
    assert (c < k)%nat as Hlt by (unfold n in Hj; nia).
    pose proof (Nat.mul_le_mono_r (S c) k (2 * h) Hlt) as Hmul.
    unfold forward_step_vector.
    rewrite !vec_From_in_bounds by (unfold n in *; simpl in *; lia).
    rewrite !bind_Ok.
    destruct (products_chunk A (c * (2 * h)) (i * (n * 2) + c * (2 * h)))
      as [HlA HsA]; [unfold n in *; simpl in *; lia..|].
    destruct (products_chunk B (c * (2 * h)) (n + i * (n * 2) + c * (2 * h)))
      as [HlB HsB]; [unfold n in *; simpl in *; lia..|].
    destruct (sum_vec_Add OT z _ (eq_trans Hlen (eq_sym HlA))) as [Hl1 Hs1].
    destruct (sum_vec_Add OT _ _ (eq_trans (eq_trans Hl1 Hlen) (eq_sym HlB)))
      as [Hl2 Hs2].
    eexists. split; [reflexivity|]. split; [|split].
    + exists (S c). rewrite Nat.mul_succ_l. lia.
    + by rewrite Hl2, Hl1.
    + rewrite Hs2. rewrite big_sum_split.
      unfold term at 2. rewrite big_sum_plus, Z.add_assoc.
      apply convert_add_congr.
      * rewrite Hs1. apply convert_add_congr; [done|].
        rewrite HsA. f_equal. apply big_sum_ext. intros q _.
        do 2 f_equal. unfold n. lia.
      * rewrite HsB. f_equal. apply big_sum_ext. intros q _.
        do 2 f_equal. unfold n. lia.
  - exists zmm0. split; [exact Hrun|]. unfold vec_Sum. rewrite Hsum.
    f_equal. f_equal. pose proof (Nat.mul_le_mono_r c k (2 * h) Hc).
    unfold n in *. lia.
Qed.

(** With a register of [2 * h] lanes of [T] and of [h] lanes of [OT],
    accumulators of [k] chunks and [OT] no wider than the type of a
    product, one pass of the vector loop over [i] stores the value the
    scalar loop stores. *)
Lemma forward_neuron_vector_in_bounds i out :
  bits OT <= bits (promote T) →
  (S i * (k * (2 * h) * 2) ≤ length W)%nat →
  (o + i < length bias)%nat → (o + i < length out)%nat →
  forward_neuron_vector T (k * (2 * h)) (2 * h) (2 * h) OT h Activate_vector
    A B W bias o i
    ((i * (k * (2 * h) * 2))%nat,
     forward_output T (k * (2 * h)) OT Activate A B W bias o i out) =
  Ok ((S i * (k * (2 * h) * 2))%nat,
      forward_output T (k * (2 * h)) OT Activate A B W bias o (S i) out).
Proof using Activate_lanes h_pos sized_A sized_B.
  intros HOT HW Hb Ho. unfold forward_neuron_vector.
  destruct (forward_steps_vector i HW) as (zmm0 & -> & Hsum).
  rewrite bind_Ok, read_in_bounds, bind_Ok by done.
  unfold forward_output.
  erewrite write_updated; [|done|].
  - simpl. do 2 f_equal. lia.
  - simpl. unfold neuron_value, add. rewrite Hsum.
    rewrite convert_convert by apply bits_common_l.
    rewrite convert_absorb by lia.
    symmetry. by apply convert_weighted_sum.
Qed.

Lemma ActivateFlattenAndForward_vector_spec out :
  bits OT <= bits (promote T) →
  (k * (2 * h) * 2 * OutputSize ≤ length W)%nat →
  in_bounds bias o OutputSize → in_bounds out o OutputSize →
  ActivateFlattenAndForward_vector T (k * (2 * h)) (2 * h) (2 * h) OT h
    OutputSize Activate_vector A B W bias out o =
  Ok (forward_output T (k * (2 * h)) OT Activate A B W bias o OutputSize out).
Proof using Activate_lanes h_pos sized_A sized_B.
  unfold in_bounds. intros HOT HW Hb Ho. unfold ActivateFlattenAndForward_vector.
  edestruct (for_range_invariant
    (λ i st, st = ((i * (k * (2 * h) * 2))%nat,
                   forward_output T (k * (2 * h)) OT Activate A B W bias o i out)))
    as (st & -> & ->).
  { unfold forward_output. by rewrite updated_0. }
  { intros i st Hi ->. eexists. split; [|reflexivity].
    apply forward_neuron_vector_in_bounds; [done| |lia|lia].
    apply block_in_bounds with (OutputSize := OutputSize); lia. }
  done.
Qed.

End VectorForwardPass.

(** The loop over [j] of the vector branch, on inputs that are not a whole
    number of chunks long, loads the last, partial chunk of [inputA] past
    the end of the array. *)
Lemma forward_steps_vector_partial_chunk
    n step OT Activate_vector (A B W : list Z) zmm0 :
  (0 < step)%nat → Nat.modulo n step ≠ 0%nat →
  sized n A → sized n B → (n * 2 ≤ length W)%nat →
  for_step step n (forward_step_vector n step OT Activate_vector A B W 0) zmm0 =
  Fault (OutOfBounds InputA n).
Proof.
  unfold sized. intros Hstep Hmod HA HB HW. unfold for_step.
  pose proof (Nat.div_mod_eq n step) as Hdiv.
  pose proof (Nat.mod_upper_bound n step) as Hub.
  apply (for_step_from_fault
    (λ j _, ∃ c, j = (c * step)%nat ∧ (c ≤ Nat.div n step)%nat)
    _ n 0 step n (Nat.div n step * step)); try lia.
  - exists 0%nat. lia.
  - intros j _ (c & -> & Hc).
    pose proof (Nat.mul_le_mono_r c _ step Hc). split; [lia|]. intros Hlt.
    assert (c < Nat.div n step)%nat as Hc' by nia.
    pose proof (Nat.mul_le_mono_r (S c) _ step Hc'). simpl in *. lia.
  - intros j z Hj (c & -> & Hc).
    assert (c < Nat.div n step)%nat as Hc' by nia.
    pose proof (Nat.mul_le_mono_r (S c) _ step Hc') as Hmul. simpl in Hmul.
    unfold forward_step_vector.
    rewrite !vec_From_in_bounds by lia. rewrite !bind_Ok.
    eexists. split; [reflexivity|]. exists (S c). simpl. lia.
  - intros z _. unfold forward_step_vector, vec_From.
    rewrite (decide_False (P := (Nat.div n step * step + step ≤ length A)%nat))
      by lia.
    cbn [mbind result_bind]. do 2 f_equal. lia.
Qed.

(** X13. When a register holds [2 * h] lanes of [T], as many as the loop
    over [j] steps over, and [h] lanes of [OT], the inputs are a whole
    number [k] of chunks long, [OT] is no wider than the type products
    are computed in, and the overload of [Activate] on registers applies
    [Activate] to every lane, the vector branch of
    [ActivateFlattenAndForward] completes with the same [output] as the
    scalar branch. *)
Theorem vector_forward_agrees
    T OT h k OutputSize Activate Activate_vector
    inputA inputB weight bias output o :
  (0 < h)%nat → bits OT <= bits (promote T) →
  (∀ c, Activate_vector c = Activate <$> c) →
  sized (k * (2 * h)) inputA → sized (k * (2 * h)) inputB →
  sized (k * (2 * h) * 2 * OutputSize) weight →
  in_bounds bias o OutputSize → in_bounds output o OutputSize →
  ∃ output',
    ActivateFlattenAndForward_vector T (k * (2 * h)) (2 * h) (2 * h) OT h
      OutputSize Activate_vector inputA inputB weight bias output o = Ok output' ∧
    ActivateFlattenAndForward T (k * (2 * h)) OT OutputSize Activate
      inputA inputB weight bias output o = Ok output'.
Proof.
  intros Hh HOT Hact HA HB HW Hb Ho. unfold sized in HW.
  eexists. split.
  - apply ActivateFlattenAndForward_vector_spec; try done. lia.
  - apply ActivateFlattenAndForward_spec; try done. lia.
Qed.

(** X14. When the input length is not a multiple of the chunk length and
    there is at least one output neuron, the vector branch of
    [ActivateFlattenAndForward] loads the last, partial chunk of [inputA]
    past the end of the array: the first index outside is [InputSize]. *)
Theorem vector_forward_needs_whole_chunks
    T OT step wO n OutputSize Activate_vector inputA inputB weight bias output o :
  (0 < step)%nat → Nat.modulo n step ≠ 0%nat → (0 < OutputSize)%nat →
  sized n inputA → sized n inputB → sized (n * 2 * OutputSize) weight →
  ActivateFlattenAndForward_vector T n step step OT wO OutputSize
    Activate_vector inputA inputB weight bias output o =
  Fault (OutOfBounds InputA n).
Proof.
  intros Hstep Hmod Hpos HA HB HW. unfold sized in HW.
  unfold ActivateFlattenAndForward_vector.
  destruct OutputSize as [|m]; [lia|]. simpl.
  rewrite forward_steps_vector_partial_chunk; try done. nia.
Qed.

Lemma vector_forward_agrees_witness :
  ∃ output',
    ActivateFlattenAndForward_vector I16 16 16 16 I32 8 1 (fmap (Z.max 0))
      (seqZ (-8) 16) (replicate 16 3) (seqZ 1 32) [5] [0] 0 = Ok output' ∧
    ActivateFlattenAndForward I16 16 I32 1 (Z.max 0)
      (seqZ (-8) 16) (replicate 16 3) (seqZ 1 32) [5] [0] 0 = Ok output'.
Proof.
  apply (vector_forward_agrees I16 I32 8 1 1 (Z.max 0) (fmap (Z.max 0))
           (seqZ (-8) 16) (replicate 16 3) (seqZ 1 32) [5] [0] 0);
    first [ lia | reflexivity | by vm_compute
          | unfold in_bounds; simpl; lia ].
Defined.

Lemma vector_forward_needs_whole_chunks_witness :
  ActivateFlattenAndForward_vector I16 24 16 16 I32 8 1 (fmap (Z.max 0))
    (replicate 24 1) (replicate 24 3) (replicate 48 2) [5] [0] 0 =
  Fault (OutOfBounds InputA 24).
Proof.
  apply (vector_forward_needs_whole_chunks I16 I32 16 8 24 1 (fmap (Z.max 0))
           (replicate 24 1) (replicate 24 3) (replicate 48 2) [5] [0] 0);
    first [ lia | reflexivity | by vm_compute ].
Defined.
